(** * dbmeta: the in-memory query layer of [src/dbmeta/db.py]

    A shallow embedding of [TableQuery] (the relational pipeline) and of
    [SQLParserAdvanced] (tokenizer, shunting-yard compiler, postfix
    evaluator and clause-driven executor), followed by the properties the
    specification states about them.

    Conventions of the embedding.
    - Python exceptions are explicit: a function that can raise returns
      [result A], and each [try]/[except] of the source is a match on
      that result.
    - Text is 8-bit: character classes and case mapping are the ASCII ones
      ([str.isspace], [str.lower], [\s], [\w] and [\b] of Python also know
      the non-ASCII code points, which are not modelled).
    - Floating point numbers are kept abstract in the class [PyFloat]: the
      interpreter's comparisons, conversions and sums are operations of
      that class, and every theorem holds for each instance. *)

From Stdlib Require Import ZArith String Ascii List Bool Lia Sorted.
From Stdlib Require PrimFloat SpecFloat FloatOps.
From stdpp Require Import gmap strings list pretty.

Set Warnings "-register-all".
Local Open Scope string_scope.
Local Open Scope list_scope.
Local Open Scope Z_scope.

(** ** Exceptions *)

Inductive exn :=
| TypeError
| AttributeError
| IndexError
| OverflowError
| ValueError (msg : string).

Inductive result (A : Type) :=
| Ok (a : A)
| Raise (e : exn).
Arguments Ok {A} a.
Arguments Raise {A} e.

Definition bind {A B} (m : result A) (f : A → result B) : result B :=
  match m with Ok a => f a | Raise e => Raise e end.

Notation "'let*' x := m 'in' k" := (bind m (fun x => k))
  (at level 10, x pattern, m at level 100, k at level 200).

Definition is_ok {A} (m : result A) : bool :=
  match m with Ok _ => true | Raise _ => false end.

(** [[f(x) for x in l]] with the first exception propagating. *)
Fixpoint mapM {A B} (f : A → result B) (l : list A) : result (list B) :=
  match l with
  | [] => Ok []
  | x :: l' => let* y := f x in let* ys := mapM f l' in Ok (y :: ys)
  end.

(** [[x for x in l if p(x)]] with the first exception propagating. *)
Fixpoint filterM {A} (p : A → result bool) (l : list A) : result (list A) :=
  match l with
  | [] => Ok []
  | x :: l' =>
      let* b := p x in
      let* ys := filterM p l' in
      Ok (if b : bool then x :: ys else ys)
  end.

(** ** Characters and text *)

Definition code (c : ascii) : N := N_of_ascii c.
Definition in_range (lo hi : N) (c : ascii) : bool :=
  (N.leb lo (code c) && N.leb (code c) hi)%N.

Definition is_upper (c : ascii) : bool := in_range 65 90 c.
Definition is_lower (c : ascii) : bool := in_range 97 122 c.
Definition is_digit (c : ascii) : bool := in_range 48 57 c.
Definition is_alpha (c : ascii) : bool := is_upper c || is_lower c.
(** [\w] *)
Definition is_word (c : ascii) : bool :=
  is_alpha c || is_digit c || Ascii.eqb c "_".
(** [str.isspace] and [\s]: tab, newline, vertical tab, form feed, carriage
    return, the four separators 0x1c-0x1f and the space. *)
Definition is_space (c : ascii) : bool :=
  in_range 9 13 c || in_range 28 31 c || Ascii.eqb c " ".

Definition lower_char (c : ascii) : ascii :=
  if is_upper c then ascii_of_N (code c + 32) else c.
Definition upper_char (c : ascii) : ascii :=
  if is_lower c then ascii_of_N (code c - 32) else c.

Fixpoint str_map (f : ascii → ascii) (s : string) : string :=
  match s with
  | EmptyString => EmptyString
  | String c s' => String (f c) (str_map f s')
  end.
Definition lower (s : string) : string := str_map lower_char s.
Definition upper (s : string) : string := str_map upper_char s.

Fixpoint str_forall (p : ascii → bool) (s : string) : bool :=
  match s with
  | EmptyString => true
  | String c s' => p c && str_forall p s'
  end.

Fixpoint str_rev_onto (s acc : string) : string :=
  match s with
  | EmptyString => acc
  | String c s' => str_rev_onto s' (String c acc)
  end.
Definition str_rev (s : string) : string := str_rev_onto s EmptyString.

Fixpoint lstrip_by (p : ascii → bool) (s : string) : string :=
  match s with
  | EmptyString => EmptyString
  | String c s' => if p c then lstrip_by p s' else s
  end.
Definition strip_by (p : ascii → bool) (s : string) : string :=
  str_rev (lstrip_by p (str_rev (lstrip_by p s))).
(** [s.strip()] *)
Definition strip (s : string) : string := strip_by is_space s.

(** [s[n:]] for [n] within the string or past its end *)
Fixpoint str_drop (n : nat) (s : string) : string :=
  match n, s with
  | O, _ => s
  | S n', String _ s' => str_drop n' s'
  | S _, EmptyString => EmptyString
  end.
(** [s[:n]] *)
Fixpoint str_take (n : nat) (s : string) : string :=
  match n, s with
  | O, _ => EmptyString
  | S n', String c s' => String c (str_take n' s')
  | S _, EmptyString => EmptyString
  end.

(** [sub in s] on text *)
Fixpoint str_contains (s sub : string) : bool :=
  String.prefix sub s ||
  match s with
  | EmptyString => false
  | String _ s' => str_contains s' sub
  end.

(** [sep.join(parts)] *)
Fixpoint join (sep : string) (parts : list string) : string :=
  match parts with
  | [] => EmptyString
  | [p] => p
  | p :: ps => p +:+ sep +:+ join sep ps
  end.

(** [s.split()]: the maximal runs of non-space characters. [cur] is the run
    being read, reversed. *)
Fixpoint split_ws_aux (s cur : string) : list string :=
  let flush := match cur with EmptyString => [] | _ => [str_rev cur] end in
  match s with
  | EmptyString => flush
  | String c s' =>
      if is_space c then flush ++ split_ws_aux s' EmptyString
      else split_ws_aux s' (String c cur)
  end.
Definition split_ws (s : string) : list string := split_ws_aux s EmptyString.

(** [s.split(",")] *)
Fixpoint split_on_aux (d : ascii) (s cur : string) : list string :=
  match s with
  | EmptyString => [str_rev cur]
  | String c s' =>
      if Ascii.eqb c d then str_rev cur :: split_on_aux d s' EmptyString
      else split_on_aux d s' (String c cur)
  end.
Definition split_on (d : ascii) (s : string) : list string :=
  split_on_aux d s EmptyString.

(** [int(s)] for a string of decimal digits *)
Definition digit_val (c : ascii) : Z := Z.of_N (code c) - 48.
Fixpoint int_of_digits_aux (s : string) (acc : Z) : Z :=
  match s with
  | EmptyString => acc
  | String c s' => int_of_digits_aux s' (10 * acc + digit_val c)
  end.
Definition int_of_digits (s : string) : Z := int_of_digits_aux s 0.

(** ** Floating point numbers of the interpreter *)

Class PyFloat := {
  float : Type;
  (** [x < y], [x == y], [x > y] on two floats; [None] when unordered *)
  float_cmp : float → float → option comparison;
  (** the same between an [int] and a [float] (exact in Python) *)
  int_float_cmp : Z → float → option comparison;
  (** [bool(x)] *)
  float_truthy : float → bool;
  (** [sum(vals)] once one of the values is a float; [None] is
      [OverflowError] (an [int] too large to convert) *)
  float_sum : list (Z + float) → option float;
  (** [a / n] for ints, and for a float and an int; [None] is
      [OverflowError] *)
  int_truediv : Z → Z → option float;
  float_truediv : float → Z → option float;
  (** [float(s)]; [None] is [ValueError] *)
  float_of_string : string → option float;
}.

(** ** Values

    The scalars of a record, the list literal of a membership test, and what
    a Group record adds: the tuple of its key and the list of its member
    records. A [dict] is the list of its items in insertion order, with
    pairwise different keys. *)

Section Values.
Context `{PyFloat}.

Inductive value :=
| VNone
| VBool (b : bool)
| VInt (n : Z)
| VFloat (f : float)
| VStr (s : string)
| VList (l : list value)
| VTuple (l : list value)
| VDict (d : list (string * value)).

Definition row := list (string * value).

(** [d.get(k)] *)
Fixpoint dict_get (k : string) (d : row) : value :=
  match d with
  | [] => VNone
  | (k', v) :: d' => if String.eqb k' k then v else dict_get k d'
  end.

(** [k in d] *)
Fixpoint dict_mem (k : string) (d : row) : bool :=
  match d with
  | [] => false
  | (k', _) :: d' => String.eqb k' k || dict_mem k d'
  end.

(** [d[k] = v]: an existing key keeps its place, a new one goes last. *)
Fixpoint dict_set (k : string) (v : value) (d : row) : row :=
  match d with
  | [] => [(k, v)]
  | (k', v') :: d' =>
      if String.eqb k' k then (k, v) :: d' else (k', v') :: dict_set k v d'
  end.

(** [d.update(r)] *)
Definition dict_update (d r : row) : row :=
  fold_left (fun acc kv => dict_set (fst kv) (snd kv) acc) r d.

(** *** Numbers: [isinstance(v, (int, float))]; a [bool] is an [int]. *)

Definition as_num (v : value) : option (Z + float) :=
  match v with
  | VBool b => Some (inl (if b then 1 else 0))
  | VInt n => Some (inl n)
  | VFloat f => Some (inr f)
  | _ => None
  end.

Definition is_num (v : value) : bool :=
  match as_num v with Some _ => true | None => false end.

Definition num_cmp (a b : Z + float) : option comparison :=
  match a, b with
  | inl x, inl y => Some (x ?= y)
  | inl x, inr g => int_float_cmp x g
  | inr f, inl y => option_map CompOpp (int_float_cmp y f)
  | inr f, inr g => float_cmp f g
  end.

(** The four ordering operators. *)
Inductive ordering := Lt_ | Le_ | Gt_ | Ge_.

Definition holds (o : ordering) (c : option comparison) : bool :=
  match o, c with
  | Lt_, Some Lt => true
  | Le_, Some (Lt | Eq) => true
  | Gt_, Some Gt => true
  | Ge_, Some (Gt | Eq) => true
  | _, _ => false
  end.

(** *** [a == b]

    Never raises on these types. Lists and tuples compare element by
    element, dicts key by key. *)
Fixpoint py_eq (a b : value) {struct a} : bool :=
  match a, b with
  | VNone, VNone => true
  | (VBool _ | VInt _ | VFloat _), (VBool _ | VInt _ | VFloat _) =>
      match as_num a, as_num b with
      | Some x, Some y =>
          match num_cmp x y with Some Eq => true | _ => false end
      | _, _ => false
      end
  | VStr s, VStr t => String.eqb s t
  | VList xs, VList ys | VTuple xs, VTuple ys =>
      (fix all2 (xs ys : list value) {struct xs} : bool :=
         match xs, ys with
         | [], [] => true
         | x :: xs', y :: ys' => py_eq x y && all2 xs' ys'
         | _, _ => false
         end) xs ys
  | VDict d, VDict e =>
      Nat.eqb (length d) (length e) &&
      (fix each (d : list (string * value)) : bool :=
         match d with
         | [] => true
         | (k, v) :: d' => dict_mem k e && py_eq v (dict_get k e) && each d'
         end) d
  | _, _ => false
  end.

(** [a != b] *)
Definition py_ne (a b : value) : bool := negb (py_eq a b).

(** *** [a < b], [a <= b], [a > b], [a >= b]

    Numbers with numbers, text with text by code point, lists with lists
    and tuples with tuples at their first differing element; anything else
    raises [TypeError], [None] against [None] included. *)
Definition str_holds (o : ordering) (s t : string) : bool :=
  holds o (Some (String.compare s t)).

Fixpoint py_order (o : ordering) (a b : value) {struct a} : result bool :=
  let seq_order :=
    fix seq_order (xs ys : list value) {struct xs} : result bool :=
      match xs, ys with
      | x :: xs', y :: ys' =>
          if py_eq x y then seq_order xs' ys' else py_order o x y
      | _, _ =>
          Ok (holds o (Some (Nat.compare (length xs) (length ys))))
      end in
  match a, b with
  | (VBool _ | VInt _ | VFloat _), (VBool _ | VInt _ | VFloat _) =>
      match as_num a, as_num b with
      | Some x, Some y => Ok (holds o (num_cmp x y))
      | _, _ => Raise TypeError
      end
  | VStr s, VStr t => Ok (str_holds o s t)
  | VList xs, VList ys | VTuple xs, VTuple ys => seq_order xs ys
  | _, _ => Raise TypeError
  end.

Definition py_lt := py_order Lt_.

(** [hash(v)] succeeds: lists and dicts are unhashable. *)
Fixpoint hashable (v : value) : bool :=
  match v with
  | VList _ | VDict _ => false
  | VTuple l => forallb hashable l
  | _ => true
  end.

(** *** [a in b]

    A list or tuple holds an element equal to [a]; text holds [a] as a
    substring and accepts only text; a dict has [a] among its keys and
    accepts only hashable values; nothing else is a container. *)
Definition py_in (a b : value) : result bool :=
  match b with
  | VList l | VTuple l => Ok (existsb (fun x => py_eq x a) l)
  | VStr s =>
      match a with
      | VStr sub => Ok (str_contains s sub)
      | _ => Raise TypeError
      end
  | VDict d =>
      if hashable a
      then Ok (match a with VStr k => dict_mem k d | _ => false end)
      else Raise TypeError
  | _ => Raise TypeError
  end.

(** [bool(v)] *)
Definition truthy (v : value) : bool :=
  match v with
  | VNone => false
  | VBool b => b
  | VInt n => negb (n =? 0)
  | VFloat f => float_truthy f
  | VStr s => negb (String.eqb s "")
  | VList l | VTuple l => negb (Nat.eqb (length l) 0)
  | VDict d => negb (Nat.eqb (length d) 0)
  end.

End Values.

(** ** TableQuery: the relational pipeline

    Each operator is given first as a function of the records a pipeline
    holds; the objects that carry them, and their allocation, follow in
    [Section Store]. *)

Section TableQuery.
Context `{PyFloat}.

(** A predicate triple [(col, op, val)]. *)
Definition condition : Type := string * string * value.

(** The [isinstance(v, (int, float)) and v OP val] guard of [where] and
    [having]: the comparison runs only for a numeric [v], unprotected. *)
Definition num_and_order (o : ordering) (v val : value) : result bool :=
  if is_num v then py_order o v val else Ok false.

(** [check(row)] of [TableQuery.where] *)
Fixpoint where_check (conditions : list condition) (r : row) : result bool :=
  match conditions with
  | [] => Ok true
  | (col, op, val) :: rest =>
      let v := dict_get col r in
      let next (keep : bool) :=
        if keep then where_check rest r else Ok false in
      if String.eqb op "=" then next (negb (py_ne v val))
      else if String.eqb op "!=" then next (negb (py_eq v val))
      else if String.eqb op ">" then
        let* b := num_and_order Gt_ v val in next b
      else if String.eqb op "<" then
        let* b := num_and_order Lt_ v val in next b
      else if String.eqb op ">=" then
        let* b := num_and_order Ge_ v val in next b
      else if String.eqb op "<=" then
        let* b := num_and_order Le_ v val in next b
      else if String.eqb op "contains" then
        match v with
        | VStr sv =>
            match val with
            | VStr sval => next (str_contains (lower sv) (lower sval))
            | _ => Raise AttributeError
            end
        | _ => Ok false
        end
      else if String.eqb op "in" then
        let* b := py_in v val in next b
      else if String.eqb op "not in" then
        let* b := py_in v val in next (negb b)
      else Ok false
  end.

(** [TableQuery.where] *)
Definition where_ (conditions : list condition) (rows : list row)
  : result (list row) :=
  filterM (where_check conditions) rows.

(** [check(row)] of [TableQuery.having] *)
Fixpoint having_check (conditions : list condition) (r : row) : result bool :=
  match conditions with
  | [] => Ok true
  | (col, op, val) :: rest =>
      let v := dict_get col r in
      let next (keep : bool) :=
        if keep then having_check rest r else Ok false in
      if String.eqb op "=" then next (negb (py_ne v val))
      else if String.eqb op "!=" then next (negb (py_eq v val))
      else if String.eqb op ">" then
        let* b := num_and_order Gt_ v val in next b
      else if String.eqb op "<" then
        let* b := num_and_order Lt_ v val in next b
      else if String.eqb op ">=" then
        let* b := num_and_order Ge_ v val in next b
      else if String.eqb op "<=" then
        let* b := num_and_order Le_ v val in next b
      else Ok false
  end.

(** [TableQuery.having] *)
Definition having (conditions : list condition) (rows : list row)
  : result (list row) :=
  filterM (having_check conditions) rows.

(** [TableQuery.select]: [{c: r.get(c) for c in cols}] per record *)
Definition select_row (cols : list string) (r : row) : row :=
  fold_left (fun acc c => dict_set c (dict_get c r) acc) cols [].
Definition select (cols : list string) (rows : list row) : list row :=
  map (select_row cols) rows.

(** *** [sorted(rows, key=..., reverse=desc)]

    A stable insertion sort on the [<] of the keys: a record goes behind
    every record it is not smaller than (for [reverse], not greater than),
    and the first comparison that raises ends the sort. On keys that can
    all be ordered this is the result of [sorted]; on scalar keys it
    raises exactly when [sorted] does, that is when two keys of the list
    cannot be ordered (CPython's sort may compare other pairs than this
    one, which shows only for keys that are themselves lists or tuples). *)
Definition goes_before (desc : bool) (x e : value) : result bool :=
  if desc then py_lt e x else py_lt x e.

Fixpoint insert_sorted (desc : bool) (x : value * row)
  (l : list (value * row)) : result (list (value * row)) :=
  match l with
  | [] => Ok [x]
  | e :: l' =>
      let* b := goes_before desc (fst x) (fst e) in
      if b then Ok (x :: e :: l')
      else let* l'' := insert_sorted desc x l' in Ok (e :: l'')
  end.

Definition py_sorted (desc : bool) (keyed : list (value * row))
  : result (list (value * row)) :=
  fold_left (fun acc x => let* l := acc in insert_sorted desc x l)
    keyed (Ok []).

(** The [sorted] call of [order_by], which may raise. *)
Definition sorted_by (col : string) (desc : bool) (rows : list row)
  : result (list row) :=
  let* l := py_sorted desc (map (fun r => (dict_get col r, r)) rows) in
  Ok (map snd l).

(** [TableQuery.order_by(col, desc)]: on any exception the pipeline itself
    is returned. *)
Definition order_by (col : string) (desc : bool) (rows : list row)
  : list row :=
  match sorted_by col desc rows with
  | Ok l => l
  | Raise _ => rows
  end.

(** [rows[:n]]: a negative [n] counts from the end. *)
Definition slice_to {A} (n : Z) (l : list A) : list A :=
  if 0 <=? n then take (Z.to_nat n) l
  else take (Z.to_nat (Z.of_nat (length l) + n)) l.

(** [TableQuery.limit(n)] *)
Definition limit (n : Z) (rows : list row) : list row := slice_to n rows.

(** [merged = dict(l); merged.update(r)] *)
Definition merged (l r : row) : row := dict_update l r.

(** [TableQuery.join(other, on)] *)
Definition join_row (other : list row) (on : string) (l : row) : list row :=
  let lv := dict_get on l in
  map (merged l) (List.filter (fun r => py_eq (dict_get on r) lv) other).

Definition join_ (rows other : list row) (on : string) : list row :=
  concat (map (join_row other on) rows).

(** [TableQuery.multi_join(tables, on)] *)
Definition multi_join (rows : list row) (tables : list (list row))
  (on : string) : list row :=
  fold_left (fun joined t => join_ joined t on) tables rows.

(** *** Aggregates: [sum], [min], [max] and [/] on numeric values *)

Definition all_ints (l : list (Z + float)) : option (list Z) :=
  fold_right (fun x acc =>
                match x, acc with
                | inl n, Some ns => Some (n :: ns)
                | _, _ => None
                end) (Some []) l.

Definition lift_float (o : option float) : result value :=
  match o with Some f => Ok (VFloat f) | None => Raise OverflowError end.

(** [sum(vals)]: exact on ints, the interpreter's float sum otherwise. *)
Definition py_sum (vals : list (Z + float)) : result value :=
  match all_ints vals with
  | Some ns => Ok (VInt (fold_left Z.add ns 0))
  | None => lift_float (float_sum vals)
  end.

(** [min(vals)] and [max(vals)]: the first smallest, the first greatest. *)
Definition num_of (v : value) : Z + float :=
  match as_num v with Some x => x | None => inl 0 end.

Definition py_extremum (o : ordering) (vals : list value) : value :=
  match vals with
  | [] => VNone
  | v :: vs =>
      fold_left (fun best item =>
                   if holds o (num_cmp (num_of item) (num_of best))
                   then item else best) vs v
  end.
Definition py_min := py_extremum Lt_.
Definition py_max := py_extremum Gt_.

(** [sum(vals) / len(vals)] *)
Definition py_avg (vals : list value) : result value :=
  let* s := py_sum (map num_of vals) in
  let n := Z.of_nat (length vals) in
  match s with
  | VInt a => lift_float (int_truediv a n)
  | VFloat f => lift_float (float_truediv f n)
  | _ => Raise TypeError
  end.

(** [[r.get(col) for r in rows if isinstance(r.get(col), (int, float))]] *)
Definition numeric_vals (col : string) (rows : list row) : list value :=
  List.filter is_num (map (dict_get col) rows).

(** *** [TableQuery.group_by]

    [groups] is the [defaultdict] in insertion order; its keys are tuples,
    found again by [==], and a key holding a list or a dict cannot be
    hashed. *)
Definition groups_t : Type := list (list value * list row).

Fixpoint groups_append (key : list value) (r : row) (groups : groups_t)
  : groups_t :=
  match groups with
  | [] => [(key, [r])]
  | (k, rs) :: g =>
      if py_eq (VTuple k) (VTuple key) then (k, (rs ++ [r])%list) :: g
      else (k, rs) :: groups_append key r g
  end.

Definition collect_groups (cols : list string) (rows : list row)
  : result groups_t :=
  fold_left (fun acc r =>
               let* groups := acc in
               let key := map (fun c => dict_get c r) cols in
               if hashable (VTuple key) then Ok (groups_append key r groups)
               else Raise TypeError)
    rows (Ok []).

(** [{k for r in rows for k, v in r.items() if isinstance(v, (int, float))}],
    each column once, in the order of its first occurrence (the iteration
    order of the Python set only decides the order in which the aggregate
    fields enter the group record). *)
Fixpoint dedup_str (l : list string) : list string :=
  match l with
  | [] => []
  | x :: l' => x :: List.filter (fun y => negb (String.eqb x y)) (dedup_str l')
  end.

Definition numeric_cols (rows : list row) : list string :=
  dedup_str
    (concat (map (fun r : row =>
                    map fst (List.filter (fun kv => is_num (snd kv)) r)) rows)).

Definition add_aggregates (rows : list row) (group : result row)
  (col : string) : result row :=
  let* g := group in
  let vals := numeric_vals col rows in
  match vals with
  | [] => Ok g
  | _ =>
      let* s := py_sum (map num_of vals) in
      let g := dict_set ("SUM_" +:+ col) s g in
      let g := dict_set ("MIN_" +:+ col) (py_min vals) g in
      let g := dict_set ("MAX_" +:+ col) (py_max vals) g in
      let* a := py_avg vals in
      Ok (dict_set ("AVG_" +:+ col) a g)
  end.

Definition group_record (key : list value) (rows : list row) : result row :=
  fold_left (add_aggregates rows) (numeric_cols rows)
    (Ok [("_group_key", VTuple key);
         ("_rows", VList (map VDict rows));
         ("COUNT", VInt (Z.of_nat (length rows)))]).

Definition group_by (cols : list string) (rows : list row)
  : result (list row) :=
  let* groups := collect_groups cols rows in
  mapM (fun g => group_record (fst g) (snd g)) groups.

End TableQuery.

(** ** Regular expressions

    The patterns of the source are kept as patterns: [regex] is the syntax
    they use, and [rx] the backtracking matcher of Python's [re], with
    greedy and lazy repetition, ordered alternatives, capturing groups and
    atomic lookahead. *)

Inductive regex :=
| Eps
| Chr (p : ascii → bool)
| Seq (r1 r2 : regex)
| Alt (r1 r2 : regex)
| Star (greedy : bool) (r : regex)
| Group (n : nat) (r : regex)
| Ahead (r : regex)
| Bol
| Eol
| WordB.

(** Where a match stands: the character behind it, the offset and the text
    ahead, and the text of the groups closed so far (latest first). *)
Record mstate := MState {
  behind : option ascii;
  offset : nat;
  ahead : string;
  groups : list (nat * string);
}.

Definition word_at (c : option ascii) : bool :=
  match c with Some c => is_word c | None => false end.
Definition first_char (s : string) : option ascii :=
  match s with String c _ => Some c | EmptyString => None end.

Definition or_else {A} (a b : option A) : option A :=
  match a with Some x => Some x | None => b end.

Fixpoint rx (r : regex) (s : mstate) (k : mstate → option mstate)
  {struct r} : option mstate :=
  match r with
  | Eps => k s
  | Chr p =>
      match ahead s with
      | String c rest =>
          if p c then k (MState (Some c) (S (offset s)) rest (groups s))
          else None
      | EmptyString => None
      end
  | Seq r1 r2 => rx r1 s (fun s' => rx r2 s' k)
  | Alt r1 r2 => or_else (rx r1 s k) (rx r2 s k)
  | Star greedy r' =>
      (fix loop (fuel : nat) (s : mstate) {struct fuel} : option mstate :=
         match fuel with
         | O => k s
         | S fuel' =>
             let again :=
               rx r' s (fun s' =>
                          if Nat.eqb (offset s') (offset s) then None
                          else loop fuel' s') in
             if greedy then or_else again (k s) else or_else (k s) again
         end) (String.length (ahead s)) s
  | Group n r' =>
      rx r' s (fun s' =>
                 let text := str_take (offset s' - offset s) (ahead s) in
                 k (MState (behind s') (offset s') (ahead s')
                      ((n, text) :: groups s')))
  | Ahead r' =>
      match rx r' s Some with
      | Some s' => k (MState (behind s) (offset s) (ahead s) (groups s'))
      | None => None
      end
  | Bol => if Nat.eqb (offset s) 0 then k s else None
  | Eol =>
      match ahead s with
      | EmptyString => k s
      | String c EmptyString => if Ascii.eqb c "010" then k s else None
      | _ => None
      end
  | WordB =>
      if xorb (word_at (behind s)) (word_at (first_char (ahead s)))
      then k s else None
  end.

(** A found match: where it starts and the state at its end. *)
Record rmatch := RMatch { m_start : nat; m_subject : string; m_end : mstate }.

(** [m.group(n)], [None] for a group that took no part *)
Fixpoint assoc_nat (n : nat) (l : list (nat * string)) : option string :=
  match l with
  | [] => None
  | (n', t) :: l' => if Nat.eqb n n' then Some t else assoc_nat n l'
  end.
Definition group (m : rmatch) (n : nat) : option string :=
  assoc_nat n (groups (m_end m)).
(** [m.group(0)] *)
Definition group0 (m : rmatch) : string :=
  str_take (offset (m_end m) - m_start m) (str_drop (m_start m) (m_subject m)).

(** [re.match(r, s)] *)
Definition re_match (r : regex) (s : string) : option rmatch :=
  option_map (RMatch 0 s) (rx r (MState None 0 s []) Some).

(** [re.search(r, s)] from offset [i], where [rest = s[i:]] *)
Fixpoint search_from (r : regex) (s : string) (prev : option ascii)
  (i : nat) (rest : string) : option rmatch :=
  match rx r (MState prev i rest []) Some with
  | Some e => Some (RMatch i s e)
  | None =>
      match rest with
      | EmptyString => None
      | String c rest' => search_from r s (Some c) (S i) rest'
      end
  end.
Definition re_search (r : regex) (s : string) : option rmatch :=
  search_from r s None 0 s.

(** [re.findall(r, s)] for a pattern that matches no empty text: the
    matches from left to right, each searched behind the one before.
    [skip] counts the characters of [rest] inside the last match. *)
Fixpoint findall_from (r : regex) (s : string) (prev : option ascii)
  (i : nat) (rest : string) (skip : nat) : list rmatch :=
  match skip, rest with
  | S skip', String c rest' => findall_from r s (Some c) (S i) rest' skip'
  | S _, EmptyString => []
  | O, _ =>
      match rx r (MState prev i rest []) Some, rest with
      | Some e, String c rest' =>
          RMatch i s e :: findall_from r s (Some c) (S i) rest'
                            (offset e - i - 1)
      | Some e, EmptyString => [RMatch i s e]
      | None, String c rest' => findall_from r s (Some c) (S i) rest' 0
      | None, EmptyString => []
      end
  end.
Definition re_findall (r : regex) (s : string) : list rmatch :=
  findall_from r s None 0 s 0.

(** *** Pattern syntax *)

Definition any_char : regex := Chr (fun c => negb (Ascii.eqb c "010")).
Definition chr (c : ascii) : regex := Chr (Ascii.eqb c).
(** a character under [re.I] *)
Definition chr_i (c : ascii) : regex :=
  Chr (fun x => Ascii.eqb (lower_char x) (lower_char c)).
Fixpoint lit (s : string) : regex :=
  match s with
  | EmptyString => Eps
  | String c EmptyString => chr c
  | String c s' => Seq (chr c) (lit s')
  end.
Fixpoint lit_i (s : string) : regex :=
  match s with
  | EmptyString => Eps
  | String c EmptyString => chr_i c
  | String c s' => Seq (chr_i c) (lit_i s')
  end.
Definition plus (r : regex) : regex := Seq r (Star true r).
Definition star (r : regex) : regex := Star true r.
Definition lazy_star (r : regex) : regex := Star false r.
Definition opt (r : regex) : regex := Alt r Eps.
Fixpoint seqs (rs : list regex) : regex :=
  match rs with
  | [] => Eps
  | [r] => r
  | r :: rs' => Seq r (seqs rs')
  end.
Fixpoint alts (rs : list regex) : regex :=
  match rs with
  | [] => Eps
  | [r] => r
  | r :: rs' => Alt r (alts rs')
  end.
Definition ws : regex := Chr is_space.
Definition digit : regex := Chr is_digit.
(** [[a-zA-Z0-9_]] *)
Definition name_char : regex := Chr is_word.

(** ** SQLParserAdvanced: tokens

    [Token(type, value)]. The tokenizer builds the six kinds of [token],
    whose literals are text and numbers. The compiler keeps literals,
    identifiers and operators and adds the list literal of a membership
    test, so its output is a list of [rpn_token]. *)

Section SQL.
Context `{PyFloat}.

Inductive atom :=
| AInt (n : Z)
| AFloat (f : float)
| AStr (s : string).

Definition atom_value (a : atom) : value :=
  match a with
  | AInt n => VInt n
  | AFloat f => VFloat f
  | AStr s => VStr s
  end.

Inductive token :=
| LITERAL (a : atom)
| IDENT (name : string)
| OP (op : string)
| LPAREN
| RPAREN
| COMMA.

Inductive rpn_token :=
| RLITERAL (v : value)
| RIDENT (name : string)
| ROP (op : string).

(** ** The tokenizer: [_tokenize_expr] *)

(** [(and|or|not)\b], [contains\b], [in\b] under [re.I] *)
Definition re_bool_kw : regex :=
  Seq (Group 1 (alts [lit_i "and"; lit_i "or"; lit_i "not"])) WordB.
Definition re_contains : regex := Seq (lit_i "contains") WordB.
Definition re_in : regex := Seq (lit_i "in") WordB.
(** [[A-Za-z0-9_.*]+] *)
Definition re_word : regex :=
  plus (Chr (fun c => is_word c || Ascii.eqb c "." || Ascii.eqb c "*")).
(** [^\d+(\.\d+)?$] *)
Definition re_number : regex :=
  seqs [Bol; plus digit; opt (Group 1 (Seq (chr ".") (plus digit))); Eol].

Definition is_quote (c : ascii) : bool :=
  Ascii.eqb c "'" || Ascii.eqb c "034".

(** The inner loop of a quoted literal, from [j]: [prev] is [s[j-1]]. It
    yields the text read and how many characters that is; it stops in
    front of a quote [q] that no backslash precedes, or at the end of the
    input. *)
Fixpoint scan_quoted (q prev : ascii) (s : string) : string * nat :=
  match s with
  | EmptyString => (EmptyString, O)
  | String c s' =>
      if Ascii.eqb c q && negb (Ascii.eqb prev "\") then (EmptyString, O)
      else let (buf, n) := scan_quoted q c s' in (String c buf, S n)
  end.

Definition unexpected_char (ch : ascii) (i : nat) (s : string) : exn :=
  ValueError ("Unexpected char in WHERE: " +:+ String ch "" +:+ " at pos "
              +:+ pretty i +:+ " in '" +:+ s +:+ "'").

(** The token at the head of [rest = s[i:]] and the number of characters
    it takes; [None] for white space, which yields no token. *)
Definition next_token (s : string) (i : nat) (ch : ascii) (rest : string)
  : result (option token * nat) :=
  if is_space ch then Ok (None, 1%nat)
  else if Ascii.eqb ch "(" then Ok (Some LPAREN, 1%nat)
  else if Ascii.eqb ch ")" then Ok (Some RPAREN, 1%nat)
  else if existsb (String.eqb (str_take 2 rest)) [">="; "<="; "!="]
  then Ok (Some (OP (str_take 2 rest)), 2%nat)
  else if existsb (Ascii.eqb ch) ["="%char; ">"%char; "<"%char]
  then Ok (Some (OP (String ch "")), 1%nat)
  else
    match re_match re_bool_kw rest with
    | Some m =>
        let kw := upper (default "" (group m 1)) in
        Ok (if String.eqb kw "AND" then Some (OP "AND")
            else if String.eqb kw "OR" then Some (OP "OR")
            else if String.eqb kw "NOT" then Some (OP "NOT")
            else None,
            String.length (group0 m))
    | None =>
    match re_match re_contains rest with
    | Some m => Ok (Some (OP "CONTAINS"), String.length (group0 m))
    | None =>
    match re_match re_in rest with
    | Some m => Ok (Some (OP "IN"), String.length (group0 m))
    | None =>
    if is_quote ch then
      let (val, n) := scan_quoted ch ch (str_drop 1 rest) in
      Ok (Some (LITERAL (AStr val)), (n + 2)%nat)
    else
    match re_match re_word rest with
    | Some m =>
        let tok := group0 m in
        match re_match re_number tok with
        | Some _ =>
            if str_contains tok "."
            then match float_of_string tok with
                 | Some f =>
                     Ok (Some (LITERAL (AFloat f)), String.length tok)
                 | None => Raise (ValueError "could not convert string to float")
                 end
            else Ok (Some (LITERAL (AInt (int_of_digits tok))),
                     String.length tok)
        | None => Ok (Some (IDENT tok), String.length tok)
        end
    | None =>
    if Ascii.eqb ch "," then Ok (Some COMMA, 1%nat)
    else Raise (unexpected_char ch i s)
    end end end end.

(** [tokens.append(tk)], when there is a token *)
Definition append_token (tokens : list token) (tk : option token)
  : list token :=
  match tk with Some t => (tokens ++ [t])%list | None => tokens end.

(** The [while i < len(s)] loop. [rest] is [s[i:]]; [skip] counts the
    characters of [rest] that the last token already took. *)
Fixpoint tokenize_loop (s : string) (i : nat) (rest : string) (skip : nat)
  (tokens : list token) : result (list token) :=
  match rest with
  | EmptyString => Ok tokens
  | String ch rest' =>
      match skip with
      | S skip' => tokenize_loop s (S i) rest' skip' tokens
      | O =>
          let* (tk, n) := next_token s i ch rest in
          tokenize_loop s (S i) rest' (n - 1) (append_token tokens tk)
      end
  end.

Definition tokenize_expr (text : string) : result (list token) :=
  let s := strip text in
  tokenize_loop s 0 s 0 [].

(** ** The compiler to postfix form: [_to_rpn] *)

(** [prec.get(op, 0)] *)
Definition prec (op : string) : Z :=
  if String.eqb op "NOT" then 5
  else if existsb (String.eqb op)
            ["CONTAINS"; "IN"; "NOT IN"; "="; "!="; ">"; "<"; ">="; "<="]
  then 4
  else if String.eqb op "AND" then 2
  else if String.eqb op "OR" then 1
  else 0.

(** What the operator stack holds: operators and left parentheses. *)
Inductive stack_item :=
| SOP (op : string)
| SLPAREN.

(** [while opstack and opstack[-1].type == "OP" and p(opstack[-1].value):
    out.append(opstack.pop())]; the top of the stack is the head. *)
Fixpoint pop_while (p : string → bool) (out : list rpn_token)
  (opstack : list stack_item) : list rpn_token * list stack_item :=
  match opstack with
  | SOP v :: opstack' =>
      if p v then pop_while p (out ++ [ROP v])%list opstack'
      else (out, opstack)
  | _ => (out, opstack)
  end.

(** [tk.value], as the read-ahead of [IN] takes it from a token. *)
Definition token_atom (tk : token) : atom :=
  match tk with
  | LITERAL a => a
  | IDENT s => AStr s
  | OP o => AStr o
  | LPAREN => AStr "("
  | RPAREN => AStr ")"
  | COMMA => AStr ","
  end.

(** [''.join([c.value for c in current])]: only text can be joined. *)
Fixpoint join_atoms (current : list token) : result string :=
  match current with
  | [] => Ok EmptyString
  | c :: cs =>
      match token_atom c with
      | AStr s => let* t := join_atoms cs in Ok (s +:+ t)
      | _ => Raise TypeError
      end
  end.

(** The element built from the tokens between two commas. *)
Definition element (current : list token) : result atom :=
  match current with
  | [c] => Ok (token_atom c)
  | _ => let* s := join_atoms current in Ok (AStr s)
  end.

Definition close_element (vals : list atom) (current : list token)
  : result (list atom) :=
  match current with
  | [] => Ok vals
  | _ => let* v := element current in Ok (vals ++ [v])%list
  end.

(** The read-ahead of [IN], from [j = i+2]. It yields the elements and the
    number of tokens it went over, the right parenthesis included when
    there is one. Without one it runs to the end of the tokens, and the
    element being read is left out. *)
Fixpoint scan_in_list (ts : list token) (vals : list atom)
  (current : list token) : result (list atom * nat) :=
  match ts with
  | [] => Ok (vals, O)
  | RPAREN :: _ =>
      let* vals' := close_element vals current in Ok (vals', 1%nat)
  | COMMA :: ts' =>
      let* vals' := close_element vals current in
      let* (vs, n) := scan_in_list ts' vals' [] in Ok (vs, S n)
  | t :: ts' =>
      let* (vs, n) := scan_in_list ts' vals (current ++ [t])%list in
      Ok (vs, S n)
  end.

(** [s.isdigit()] *)
Definition isdigit (s : string) : bool :=
  negb (String.eqb s "") && str_forall is_digit s.

(** The coercion of one element of a list literal. *)
Definition coerce (it : atom) : value :=
  match it with
  | AInt n => VInt n
  | AFloat f => VFloat f
  | AStr s0 =>
      let s := strip_by is_quote s0 in
      if isdigit s then VInt (int_of_digits s)
      else match float_of_string s with
           | Some f => VFloat f
           | None => VStr s
           end
  end.

(** The main loop over [tokens[i:]]; [skip] counts the tokens that the
    read-ahead of [IN] went over. *)
Fixpoint rpn_loop (tokens : list token) (skip : nat) (out : list rpn_token)
  (opstack : list stack_item)
  : result (list rpn_token * list stack_item) :=
  match tokens with
  | [] => Ok (out, opstack)
  | tk :: rest =>
      match skip with
      | S skip' => rpn_loop rest skip' out opstack
      | O =>
          match tk with
          | LITERAL a =>
              rpn_loop rest 0 (out ++ [RLITERAL (atom_value a)])%list opstack
          | IDENT name => rpn_loop rest 0 (out ++ [RIDENT name])%list opstack
          | OP op =>
              if String.eqb op "NOT" then
                let (out', st) :=
                  pop_while (fun v => prec v >? prec op) out opstack in
                rpn_loop rest 0 out' (SOP op :: st)
              else if String.eqb (upper op) "IN" then
                match rest with
                | LPAREN :: items =>
                    let* (vals, n) := scan_in_list items [] [] in
                    let parsed_vals := map coerce vals in
                    let (out', st) :=
                      pop_while (fun v => prec v >=? prec "IN")
                        (out ++ [RLITERAL (VList parsed_vals)])%list opstack in
                    rpn_loop rest (S n) out' (SOP "IN" :: st)
                | _ => Raise (ValueError "IN must be followed by (list)")
                end
              else
                let (out', st) :=
                  pop_while (fun v => prec v >=? prec op) out opstack in
                rpn_loop rest 0 out' (SOP op :: st)
          | LPAREN => rpn_loop rest 0 out (SLPAREN :: opstack)
          | RPAREN =>
              match pop_while (fun _ => true) out opstack with
              | (_, []) => Raise (ValueError "Mismatched parentheses")
              | (out', _ :: st) => rpn_loop rest 0 out' st
              end
          | COMMA => rpn_loop rest 0 out opstack
          end
      end
  end.

(** [while opstack: ...] at the end *)
Fixpoint drain (out : list rpn_token) (opstack : list stack_item)
  : result (list rpn_token) :=
  match opstack with
  | [] => Ok out
  | SLPAREN :: _ => Raise (ValueError "Mismatched parentheses")
  | SOP v :: opstack' => drain (out ++ [ROP v])%list opstack'
  end.

(** The closing pass: operator names in upper case. *)
Definition upper_op (t : rpn_token) : rpn_token :=
  match t with ROP v => ROP (upper v) | _ => t end.

Definition to_rpn (tokens : list token) : result (list rpn_token) :=
  let* (out, opstack) := rpn_loop tokens 0 [] [] in
  let* out' := drain out opstack in
  Ok (map upper_op out').

(** [_parse_boolean_expression] *)
Definition parse_boolean_expression (text : string)
  : result (list rpn_token) :=
  let* tokens := tokenize_expr text in
  to_rpn tokens.

(** ** The evaluator: [eval_row] of [_apply_filter_expr] *)

(** [b = stack.pop(); a = stack.pop()] *)
Definition pop2 (stack : list value) : result (value * value * list value) :=
  match stack with
  | b :: a :: stack' => Ok (a, b, stack')
  | _ => Raise IndexError
  end.

(** [a is not None and b is not None and a OP b], inside the [try] *)
Definition guarded_order (o : ordering) (a b : value) : bool :=
  match a, b with
  | VNone, _ | _, VNone => false
  | _, _ => match py_order o a b with Ok r => r | Raise _ => false end
  end.

Definition is_comparison (op : string) : bool :=
  existsb (String.eqb op) ["="; "!="; ">"; "<"; ">="; "<="].

Definition compare_values (op : string) (a b : value) : bool :=
  if String.eqb op "=" then py_eq a b
  else if String.eqb op "!=" then py_ne a b
  else if String.eqb op ">" then guarded_order Gt_ a b
  else if String.eqb op "<" then guarded_order Lt_ a b
  else if String.eqb op ">=" then guarded_order Ge_ a b
  else if String.eqb op "<=" then guarded_order Le_ a b
  else false.

(** One token of the postfix sequence against the operand stack (top at
    the head). *)
Definition eval_token (r : row) (stack : list value) (tk : rpn_token)
  : result (list value) :=
  match tk with
  | RLITERAL v => Ok (v :: stack)
  | RIDENT name => Ok (dict_get name r :: stack)
  | ROP op =>
      if is_comparison op then
        let* (a, b, st) := pop2 stack in
        Ok (VBool (compare_values op a b) :: st)
      else if String.eqb op "CONTAINS" then
        let* (a, b, st) := pop2 stack in
        Ok (VBool (match a, b with
                   | VStr sa, VStr sb => str_contains (lower sa) (lower sb)
                   | _, _ => false
                   end) :: st)
      else if String.eqb op "IN" then
        let* (a, b, st) := pop2 stack in
        let* res := match b with VNone => Ok false | _ => py_in a b end in
        Ok (VBool res :: st)
      else if String.eqb op "NOT IN" then
        let* (a, b, st) := pop2 stack in
        let* res := py_in a b in
        Ok (VBool (negb res) :: st)
      else if String.eqb op "AND" then
        let* (a, b, st) := pop2 stack in
        Ok (VBool (truthy a && truthy b) :: st)
      else if String.eqb op "OR" then
        let* (a, b, st) := pop2 stack in
        Ok (VBool (truthy a || truthy b) :: st)
      else if String.eqb op "NOT" then
        match stack with
        | a :: st => Ok (VBool (negb (truthy a)) :: st)
        | [] => Raise IndexError
        end
      else Raise (ValueError ("Unknown op " +:+ op))
  end.

Fixpoint eval_tokens (r : row) (rpn_expr : list rpn_token)
  (stack : list value) : result (list value) :=
  match rpn_expr with
  | [] => Ok stack
  | tk :: rest =>
      let* stack' := eval_token r stack tk in eval_tokens r rest stack'
  end.

(** [eval_row(row)]: [bool(stack[-1]) if stack else False] at the end *)
Definition eval_row (rpn_expr : list rpn_token) (r : row) : result bool :=
  let* stack := eval_tokens r rpn_expr [] in
  Ok (match stack with top :: _ => truthy top | [] => false end).

(** [_apply_filter_expr(table, rpn_expr)] *)
Definition apply_filter_expr (rows : list row) (rpn_expr : list rpn_token)
  : result (list row) :=
  filterM (eval_row rpn_expr) rows.

End SQL.

(** ** The executor: [SQLParserAdvanced.run] *)

Section Run.
Context `{PyFloat}.

(** The tables attached to the [FolderDB] object, by name. ([hasattr] and
    [getattr] also see the other attributes of that object; a query that
    names one of them as a table is not modelled.) *)
Definition registry : Type := list (string * list row).

Fixpoint get_table (db : registry) (name : string) : option (list row) :=
  match db with
  | [] => None
  | (n, rows) :: db' => if String.eqb n name then Some rows else get_table db' name
  end.

(** [select\s+(.*?)\s+from\s] *)
Definition re_select : regex :=
  seqs [lit_i "select"; plus ws; Group 1 (lazy_star any_char); plus ws;
        lit_i "from"; ws].

(** [(?:\s+(?:as\s+)?([a-zA-Z0-9_]+))?] *)
Definition re_alias : regex :=
  opt (seqs [plus ws; opt (Seq (lit_i "as") (plus ws));
             Group 2 (plus name_char)]).

(** [from\s+([a-zA-Z0-9_]+)(?:\s+(?:as\s+)?([a-zA-Z0-9_]+))?] *)
Definition re_from : regex :=
  seqs [lit_i "from"; plus ws; Group 1 (plus name_char); re_alias].

(** [join\s+([a-zA-Z0-9_]+)(?:\s+(?:as\s+)?([a-zA-Z0-9_]+))?\s+using\s*\(\s*([a-zA-Z0-9_]+)\s*\)] *)
Definition re_join : regex :=
  seqs [lit_i "join"; plus ws; Group 1 (plus name_char); re_alias;
        plus ws; lit_i "using"; star ws; chr "("; star ws;
        Group 3 (plus name_char); star ws; chr ")"].

(** [order by\s+([a-zA-Z0-9_]+)(?:\s+(asc|desc))?] *)
Definition re_order_by : regex :=
  seqs [lit_i "order by"; plus ws; Group 1 (plus name_char);
        opt (Seq (plus ws) (Group 2 (Alt (lit_i "asc") (lit_i "desc"))))].

(** [limit\s+([0-9]+)] *)
Definition re_limit : regex :=
  seqs [lit_i "limit"; plus ws; Group 1 (plus digit)].

(** [_extract_between(s, start_pat, stop_pat)], the pattern being
    [start_pat + "(.*?)(?=\s*" + stop_pat + ")"] *)
Definition extract_between (s : string) (start_pat stop_pat : regex)
  : option string :=
  match re_search
          (seqs [start_pat; Group 1 (lazy_star any_char);
                 Ahead (Seq (star ws) stop_pat)]) s with
  | Some m => option_map strip (group m 1)
  | None => None
  end.

(** [(group by|having|order by|limit|$)] and its shorter forms *)
Definition stop_where : regex :=
  Group 2 (alts [lit_i "group by"; lit_i "having"; lit_i "order by";
                 lit_i "limit"; Eol]).
Definition stop_group : regex :=
  Group 2 (alts [lit_i "having"; lit_i "order by"; lit_i "limit"; Eol]).
Definition stop_having : regex :=
  Group 2 (alts [lit_i "order by"; lit_i "limit"; Eol]).

(** *** The SELECT list *)

Inductive select_item :=
| ItemAgg (func : string) (col : option string) (alias : string)
| ItemCol (name : string) (alias : string).

Definition item_alias (it : select_item) : string :=
  match it with ItemAgg _ _ a => a | ItemCol _ a => a end.
Definition is_agg (it : select_item) : bool :=
  match it with ItemAgg _ _ _ => true | ItemCol _ _ => false end.

(** [_split_top_level_commas]; [cur] is reversed. *)
Fixpoint split_commas_aux (s cur : string) (depth : Z) (parts : list string)
  : list string :=
  match s with
  | EmptyString =>
      match cur with
      | EmptyString => parts
      | _ => (parts ++ [str_rev cur])%list
      end
  | String ch s' =>
      let depth' :=
        if Ascii.eqb ch "(" then depth + 1
        else if Ascii.eqb ch ")" then depth - 1 else depth in
      if Ascii.eqb ch "," && (depth' =? 0)
      then split_commas_aux s' EmptyString depth' (parts ++ [str_rev cur])%list
      else split_commas_aux s' (String ch cur) depth' parts
  end.
Definition split_top_level_commas (s : string) : list string :=
  split_commas_aux s EmptyString 0 [].

(** [^(.*?)(?:\s+as\s+|\s+)([a-zA-Z0-9_]+)$] *)
Definition re_item_alias : regex :=
  seqs [Bol; Group 1 (lazy_star any_char);
        Alt (seqs [plus ws; lit_i "as"; plus ws]) (plus ws);
        Group 2 (plus name_char); Eol].

(** [^([A-Za-z0-9_]+)\s*\(\s*([A-Za-z0-9_*]+)?\s*\)$] *)
Definition re_item_func : regex :=
  seqs [Bol; Group 1 (plus name_char); star ws; chr "("; star ws;
        opt (Group 2 (plus (Chr (fun c => is_word c || Ascii.eqb c "*"))));
        star ws; chr ")"; Eol].

Definition parse_select_item (it0 : string) : select_item :=
  let it := strip it0 in
  let (expr, alias) :=
    match re_match re_item_alias it with
    | Some m => (strip (default "" (group m 1)), group m 2)
    | None => (it, None)
    end in
  match re_match re_item_func expr with
  | Some m =>
      let func := upper (default "" (group m 1)) in
      let col := group m 2 in
      ItemAgg func col
        (default (func +:+ "_" +:+ default "*" col) alias)
  | None => ItemCol expr (default expr alias)
  end.

(** [_parse_select_items] *)
Definition parse_select_items (clause : string) : list select_item :=
  map parse_select_item (split_top_level_commas clause).

(** *** Aggregation helpers *)

(** [_compute_aggregate_over_rows(func, col, rows)] *)
Definition compute_aggregate_over_rows (func0 : string) (col : option string)
  (rows : list row) : result value :=
  let func := upper func0 in
  let get (r : row) : value :=
    match col with Some c => dict_get c r | None => VNone end in
  if String.eqb func "COUNT" then
    match col with
    | None => Ok (VInt (Z.of_nat (length rows)))
    | Some c =>
        if String.eqb c "*" then Ok (VInt (Z.of_nat (length rows)))
        else Ok (VInt (Z.of_nat (length
                   (List.filter (fun r => match dict_get c r with
                                          | VNone => false
                                          | _ => true
                                          end) rows))))
    end
  else
    let vals := List.filter is_num (map get rows) in
    match vals with
    | [] => Ok VNone
    | _ =>
        if String.eqb func "SUM" then py_sum (map num_of vals)
        else if String.eqb func "MIN" then Ok (py_min vals)
        else if String.eqb func "MAX" then Ok (py_max vals)
        else if String.eqb func "AVG" then py_avg vals
        else Ok VNone
    end.

(** [group_dict.get("_rows", [])], read as the list of records it is in a
    Group record *)
Definition member_rows (gr : row) : result (list row) :=
  if dict_mem "_rows" gr then
    match dict_get "_rows" gr with
    | VList l =>
        mapM (fun v => match v with
                       | VDict d => Ok d
                       | _ => Raise AttributeError
                       end) l
    | _ => Raise TypeError
    end
  else Ok [].

(** [_compute_group_agg] *)
Definition compute_group_agg (gr : row) (func : string) (col : option string)
  : result value :=
  let* rows := member_rows gr in
  compute_aggregate_over_rows func col rows.

(** *** The three projections *)

Definition project_group (items : list select_item) (gr : row) : result row :=
  fold_left
    (fun acc item =>
       let* row_out := acc in
       match item with
       | ItemAgg func col alias =>
           let* v := compute_group_agg gr func col in
           Ok (dict_set alias v row_out)
       | ItemCol name alias =>
           if dict_mem name gr
           then Ok (dict_set alias (dict_get name gr) row_out)
           else
             let* rows := member_rows gr in
             Ok (dict_set alias
                   (match rows with r :: _ => dict_get name r | [] => VNone end)
                   row_out)
       end)
    items (Ok []).

Definition project_summary (items : list select_item) (rows : list row)
  : result row :=
  fold_left
    (fun acc item =>
       let* single := acc in
       match item with
       | ItemAgg func col alias =>
           let* v := compute_aggregate_over_rows func col rows in
           Ok (dict_set alias v single)
       | ItemCol name alias =>
           Ok (dict_set alias
                 (match rows with r :: _ => dict_get name r | [] => VNone end)
                 single)
       end)
    items (Ok []).

Definition project_columns (items : list select_item) (r : row) : row :=
  fold_left
    (fun acc item =>
       match item with
       | ItemCol name alias => dict_set alias (dict_get name r) acc
       | ItemAgg _ _ alias => acc
       end)
    items [].

(** *** [run(sql_text)] *)

Definition non_empty (o : option string) : option string :=
  match o with
  | Some EmptyString | None => None
  | Some s => Some s
  end.

Definition run (db : registry) (sql_text : string) : result (list row) :=
  let s_clean := join " " (split_ws (strip sql_text)) in
  match re_search re_select s_clean with
  | None => Raise (ValueError "Invalid SQL: missing SELECT ... FROM")
  | Some m =>
  let select_clause := strip (default "" (group m 1)) in
  match re_search re_from s_clean with
  | None => Raise (ValueError "Invalid SQL: missing FROM table")
  | Some m_from =>
  let from_table := default "" (group m_from 1) in
  match get_table db from_table with
  | None => Raise (ValueError ("Unknown table '" +:+ from_table +:+ "'"))
  | Some table =>
  (* JOIN ... USING(col), in the order of the text *)
  let* table :=
    fold_left
      (fun acc j =>
         let* table := acc in
         let join_table := default "" (group j 1) in
         match get_table db join_table with
         | None =>
             Raise (ValueError ("Unknown join table '" +:+ join_table +:+ "'"))
         | Some jt => Ok (join_ table jt (default "" (group j 3)))
         end)
      (re_findall re_join s_clean) (Ok table) in
  (* WHERE *)
  let* table :=
    match non_empty (extract_between s_clean
                       (Seq (lit_i "where") (plus ws)) stop_where) with
    | Some where_clause =>
        let* cond_expr := parse_boolean_expression where_clause in
        apply_filter_expr table cond_expr
    | None => Ok table
    end in
  (* GROUP BY *)
  let group_clause :=
    non_empty (extract_between s_clean
                 (Seq (lit_i "group by") (plus ws)) stop_group) in
  let grouped := match group_clause with Some _ => true | None => false end in
  let* table :=
    match group_clause with
    | Some clause => group_by (map strip (split_on "," clause)) table
    | None => Ok table
    end in
  (* HAVING *)
  let* table :=
    match non_empty (extract_between s_clean
                       (Seq (lit_i "having") (plus ws)) stop_having) with
    | Some having_clause =>
        let* having_expr := parse_boolean_expression having_clause in
        apply_filter_expr table having_expr
    | None => Ok table
    end in
  (* ORDER BY *)
  let table :=
    match re_search re_order_by s_clean with
    | Some ob =>
        let direction := default "asc" (group ob 2) in
        order_by (default "" (group ob 1))
          (String.eqb (lower direction) "desc") table
    | None => table
    end in
  (* LIMIT *)
  let table :=
    match re_search re_limit s_clean with
    | Some lm => limit (int_of_digits (default "" (group lm 1))) table
    | None => table
    end in
  (* SELECT *)
  if String.eqb (strip select_clause) "*" then Ok table
  else
    let select_items := parse_select_items select_clause in
    if grouped then mapM (project_group select_items) table
    else if existsb is_agg select_items then
      let* single := project_summary select_items table in Ok [single]
    else Ok (map (project_columns select_items) table)
  end end end.

End Run.

(** ** The floats of CPython: IEEE 754 binary64

    An instance of [PyFloat] on the primitive floats. Conversions round to
    nearest, ties to even; a sum accumulates from left to right. *)

Module Binary64.
Import SpecFloat.

Definition is_infinite (x : spec_float) : bool :=
  match x with S754_infinity _ => true | _ => false end.

(** the binary64 nearest to [m * 2^e] *)
Definition round_scaled (m e : Z) : spec_float :=
  binary_normalize 53 1024 m e false.

(** the binary64 nearest to [p / q], for [0 < q]: the quotient is taken
    with more than 64 bits and a sticky bit for the remainder *)
Definition round_ratio (p q : Z) : spec_float :=
  if p =? 0 then S754_zero false
  else
    let a := Z.abs p in
    let sh := Z.max 0 (64 + Z.log2 q - Z.log2 a) in
    let (d, r) := Z.div_eucl (a * 2 ^ sh) q in
    let m := 2 * d + (if r =? 0 then 0 else 1) in
    round_scaled (if p <? 0 then - m else m) (- sh - 1).

Definition finite (x : spec_float) : option PrimFloat.float :=
  if is_infinite x then None else Some (FloatOps.SF2Prim x).

(** [float(n)] for an int; [None] is [OverflowError] *)
Definition of_int (n : Z) : option PrimFloat.float :=
  finite (round_scaled n 0).

Definition cmp (x y : PrimFloat.float) : option comparison :=
  match PrimFloat.compare x y with
  | PrimFloat.FEq => Some Eq
  | PrimFloat.FLt => Some Lt
  | PrimFloat.FGt => Some Gt
  | PrimFloat.FNotComparable => None
  end.

Definition int_cmp (n : Z) (x : PrimFloat.float) : option comparison :=
  match FloatOps.Prim2SF x with
  | S754_nan => None
  | S754_infinity s => Some (if s then Gt else Lt)
  | S754_zero _ => Some (n ?= 0)
  | S754_finite s m e =>
      let v := if s then Zneg m else Zpos m in
      Some (if 0 <=? e then n ?= v * 2 ^ e else n * 2 ^ (- e) ?= v)
  end.

Definition sum (vals : list (Z + PrimFloat.float)) : option PrimFloat.float :=
  let step (acc : option (Z + PrimFloat.float)) (item : Z + PrimFloat.float)
      : option (Z + PrimFloat.float) :=
    match acc, item with
    | None, _ => None
    | Some (inl a), inl b => Some (inl (a + b))
    | Some (inl a), inr g =>
        option_map (fun f => inr (PrimFloat.add f g)) (of_int a)
    | Some (inr f), inl b =>
        option_map (fun g => inr (PrimFloat.add f g)) (of_int b)
    | Some (inr f), inr g => Some (inr (PrimFloat.add f g))
    end in
  match fold_left step vals (Some (inl 0)) with
  | Some (inl a) => of_int a
  | Some (inr f) => Some f
  | None => None
  end.

Definition int_div (a n : Z) : option PrimFloat.float :=
  if 0 <? n then finite (round_ratio a n)
  else if n <? 0 then finite (round_ratio (- a) (- n))
  else None.

Definition float_div (f : PrimFloat.float) (n : Z) : option PrimFloat.float :=
  option_map (PrimFloat.div f) (of_int n).

(** *** [float(s)] on decimal text: an optional sign, digits with an
    optional fraction and exponent (single underscores between digits), or
    one of [inf], [infinity] and [nan]. *)

(** [digit (["_"] digit)*]: the digits read onto [acc], their number, and
    the text behind them *)
Fixpoint digit_part (s : string) (acc : Z) (cnt : nat) : Z * nat * string :=
  match s with
  | String c s' =>
      if is_digit c then digit_part s' (10 * acc + digit_val c) (S cnt)
      else if Ascii.eqb c "_" && negb (Nat.eqb cnt 0) &&
              match s' with String d _ => is_digit d | _ => false end
      then digit_part s' acc cnt
      else (acc, cnt, s)
  | EmptyString => (acc, cnt, s)
  end.

Definition signed (s : string) : bool * string :=
  match s with
  | String "-" s' => (true, s')
  | String "+" s' => (false, s')
  | _ => (false, s)
  end.

Definition exponent (s : string) : option Z :=
  match s with
  | EmptyString => Some 0
  | String c s' =>
      if Ascii.eqb (lower_char c) "e" then
        let (neg, s'') := signed s' in
        match digit_part s'' 0 0 with
        | (e, S _, EmptyString) => Some (if neg then - e else e)
        | _ => None
        end
      else None
  end.

Definition decimal (neg : bool) (s : string) : option spec_float :=
  let '(ip, icnt, s1) := digit_part s 0 0 in
  let '(m, fcnt, s2) :=
    match s1 with
    | String "." s' =>
        let '(m, cnt, s'') := digit_part s' ip 0 in (m, cnt, s'')
    | _ => (ip, O, s1)
    end in
  if Nat.eqb (icnt + fcnt) 0 then None
  else
    match exponent s2 with
    | None => None
    | Some e =>
        let e10 := e - Z.of_nat fcnt in
        let size := Z.of_nat (icnt + fcnt) + e10 in
        let sm := if neg then - m else m in
        Some (if m =? 0 then S754_zero neg
              else if 400 <? size then S754_infinity neg
              else if size <? -400 then S754_zero neg
              else if 0 <=? e10 then round_scaled (sm * 10 ^ e10) 0
              else round_ratio sm (10 ^ (- e10)))
    end.

Definition of_string (s0 : string) : option PrimFloat.float :=
  let (neg, s) := signed (lower (strip s0)) in
  if String.eqb s "inf" || String.eqb s "infinity"
  then Some (if neg then PrimFloat.neg_infinity else PrimFloat.infinity)
  else if String.eqb s "nan" then Some PrimFloat.nan
  else option_map FloatOps.SF2Prim (decimal neg s).

#[global] Instance binary64 : PyFloat := {|
  float := PrimFloat.float;
  float_cmp := cmp;
  int_float_cmp := int_cmp;
  float_truthy := fun x => negb (PrimFloat.eqb x PrimFloat.zero);
  float_sum := sum;
  int_truediv := int_div;
  float_truediv := float_div;
  float_of_string := of_string;
|}.

End Binary64.

(** ** Pipeline objects and their sequences

    A [TableQuery] object holds a reference to a Python list. Both live in
    the store; an operator reads the list of its receiver and allocates
    what it returns. The records inside the lists are shared by reference
    and no operator writes to one, so they are kept as values. *)

Abbreviation loc := positive.

Section Store.
Context `{PyFloat}.

Inductive object :=
| OList (rows : list row)
| OTable (rows_at : loc).

Local Abbreviation store := (gmap loc object).

(** a fresh object *)
Definition alloc (o : object) (σ : store) : loc * store :=
  let l := fresh (dom σ) in (l, <[l := o]> σ).

(** [self.rows]: the list object and what it holds *)
Definition rows_of (σ : store) (p : loc) : option (loc * list row) :=
  match σ !! p with
  | Some (OTable l) =>
      match σ !! l with
      | Some (OList rows) => Some (l, rows)
      | _ => None
      end
  | _ => None
  end.

Definition read (σ : store) (p : loc) : result (list row) :=
  match rows_of σ p with
  | Some (_, rows) => Ok rows
  | None => Raise AttributeError
  end.

(** [TableQuery(<a new list>)] *)
Definition new_table (rows : list row) (σ : store) : loc * store :=
  let (l, σ1) := alloc (OList rows) σ in
  alloc (OTable l) σ1.

(** A call of one operator on a pipeline object. *)
Inductive call :=
| Where (conditions : list condition)
| Select (cols : list string)
| OrderBy (col : string) (desc : bool)
| Limit (n : Z)
| Join (other : loc) (on : string)
| MultiJoin (tables : list loc) (on : string)
| GroupBy (cols : list string)
| Having (conditions : list condition).

(** [self.join(other, on)] as an object *)
Definition join_obj (p other : loc) (on : string) (σ : store)
  : result (loc * store) :=
  let* rows := read σ p in
  let* others := read σ other in
  Ok (new_table (join_ rows others on) σ).

Definition exec (c : call) (p : loc) (σ : store) : result (loc * store) :=
  match c with
  | Where conditions =>
      let* rows := read σ p in
      let* res := where_ conditions rows in
      Ok (new_table res σ)
  | Select cols =>
      let* rows := read σ p in
      Ok (new_table (select cols rows) σ)
  | OrderBy col desc =>
      let* rows := read σ p in
      match sorted_by col desc rows with
      | Ok res => Ok (new_table res σ)
      | Raise _ => Ok (p, σ)
      end
  | Limit n =>
      let* rows := read σ p in
      Ok (new_table (limit n rows) σ)
  | Join other on => join_obj p other on σ
  | MultiJoin tables on =>
      (* joined = TableQuery(self.rows): a new object on the same list *)
      match rows_of σ p with
      | None => Raise AttributeError
      | Some (l, _) =>
          fold_left
            (fun acc t =>
               let* (joined, σ') := acc in join_obj joined t on σ')
            tables (Ok (alloc (OTable l) σ))
      end
  | GroupBy cols =>
      let* rows := read σ p in
      let* res := group_by cols rows in
      Ok (new_table res σ)
  | Having conditions =>
      let* rows := read σ p in
      let* res := having conditions rows in
      Ok (new_table res σ)
  end.

End Store.

Arguments alloc : simpl never.
Arguments new_table : simpl never.

(** * Properties *)

(** ** The pipeline operators *)

Section PipelineProperties.
Context `{PyFloat}.

Definition cond_op (c : condition) : string := snd (fst c).

(** The operators that [where] knows and [having] does not. *)
Definition where_only (op : string) : bool :=
  existsb (String.eqb op) ["contains"; "in"; "not in"].

(** On every other operator the two checks are the same function. *)
Lemma having_check_where_check (conditions : list condition) (r : row) :
  forallb (fun c => negb (where_only (cond_op c))) conditions = true →
  having_check conditions r = where_check conditions r.
Proof.
  induction conditions as [|[[col op] val] rest IH]; intros Hall; [reflexivity|].
  simpl in Hall. apply andb_prop in Hall as [Hop Hrest].
  specialize (IH Hrest).
  unfold where_only, cond_op in Hop; simpl in Hop.
  apply negb_true_iff in Hop.
  apply orb_false_iff in Hop as [Hcont Hop].
  apply orb_false_iff in Hop as [Hin Hop].
  apply orb_false_iff in Hop as [Hnotin _].
  simpl. rewrite IH, Hcont, Hin, Hnotin.
  repeat match goal with |- context [String.eqb op ?s] =>
    destruct (String.eqb op s); [reflexivity|] end.
  reflexivity.
Qed.

Lemma having_where (conditions : list condition) (rows : list row) :
  forallb (fun c => negb (where_only (cond_op c))) conditions = true →
  having conditions rows = where_ conditions rows.
Proof.
  intros Hall. unfold having, where_.
  induction rows as [|r rows IH]; [reflexivity|].
  simpl. now rewrite IH, having_check_where_check.
Qed.

(** *** [limit] *)

Lemma slice_to_length {A} (n : Z) (l : list A) :
  (length (slice_to n l) <= length l)%nat.
Proof. unfold slice_to. destruct (0 <=? n); rewrite length_take; lia. Qed.

Lemma slice_to_idempotent {A} (n : Z) (l : list A) :
  0 <= n → slice_to n (slice_to n l) = slice_to n l.
Proof.
  intros Hn. unfold slice_to.
  destruct (0 <=? n) eqn:E; [|apply Z.leb_gt in E; lia].
  rewrite take_take. f_equal. lia.
Qed.

Lemma slice_to_all {A} (n : Z) (l : list A) :
  Z.of_nat (length l) <= n → slice_to n l = l.
Proof.
  intros Hn. unfold slice_to.
  destruct (0 <=? n) eqn:E; [|apply Z.leb_gt in E; lia].
  apply take_ge. lia.
Qed.

(** C8, as the code has it. For every integer [n], [limit(n)] never
    yields more records than it is given, and leaves them unchanged when
    [n] is at least their number. For [0 <= n] it is idempotent. (A
    negative [n] drops that many records from the end, at each call.) *)
Theorem limit_idempotent_nonneg (n : Z) (rows : list row) :
  (length (limit n rows) <= length rows)%nat ∧
  (Z.of_nat (length rows) <= n → limit n rows = rows) ∧
  (0 <= n → limit n (limit n rows) = limit n rows).
Proof.
  split; [apply slice_to_length|].
  split; [apply slice_to_all|apply slice_to_idempotent].
Qed.

(** *** [join] *)

Definition is_none (v : value) : bool :=
  match v with VNone => true | _ => false end.

Lemma py_eq_none (v : value) : py_eq v VNone = is_none v.
Proof. destruct v; reflexivity. Qed.

Lemma join_row_in (rows other : list row) (on : string) (l : row) :
  In l rows → ∀ out, In out (join_row other on l) → In out (join_ rows other on).
Proof.
  intros Hl out Hout. unfold join_. apply in_concat.
  exists (join_row other on l). split; [|exact Hout].
  apply in_map_iff. now exists l.
Qed.

(** C9. A left record without the key column, or with a null there, is
    joined with exactly the right records whose key is absent or null, one
    merged record for each of them, because [None == None] holds. *)
Theorem join_matches_null_keys (rows other : list row) (on : string) (l : row) :
  In l rows →
  dict_get on l = VNone →
  py_eq VNone VNone = true ∧
  join_row other on l =
    map (merged l) (List.filter (fun r => is_none (dict_get on r)) other) ∧
  (∀ r, In r other → dict_get on r = VNone →
        In (merged l r) (join_ rows other on)).
Proof.
  intros Hl Hkey. split; [reflexivity|]. split.
  - unfold join_row. rewrite Hkey. f_equal.
    apply filter_ext. intros r. apply py_eq_none.
  - intros r Hr Hrkey. apply (join_row_in rows other on l Hl).
    unfold join_row. apply in_map. apply filter_In. split; [exact Hr|].
    now rewrite Hkey, Hrkey.
Qed.

End PipelineProperties.

(** ** Allocation: what an operator returns and what it leaves alone *)

Section StoreProperties.
Context `{PyFloat}.
Local Abbreviation store := (gmap loc object).

Lemma Ok_inj {A} (a b : A) : Ok a = Ok b → a = b.
Proof. now intros [= ->]. Qed.

(** the operator returned [TableQuery(<a new list>)] *)
Ltac by_new_table Hexec Hfresh :=
  apply Ok_inj in Hexec; apply Hfresh in Hexec; exact Hexec.

Lemma alloc_spec (o : object) (σ σ1 : store) (l : loc) :
  alloc o σ = (l, σ1) → (l ∉ dom σ) ∧ σ1 = (<[l := o]> σ) ∧ σ ⊆ σ1.
Proof.
  unfold alloc. intros [= <- <-].
  assert (Hl : fresh (dom σ) ∉ dom σ) by apply is_fresh.
  split; [exact Hl|]. split; [reflexivity|].
  apply insert_subseteq. now apply not_elem_of_dom.
Qed.

(** [q] is an object that [σ] did not have, and so is its list. *)
Definition fresh_table (σ τ : store) (q : loc) : Prop :=
  σ ⊆ τ ∧ (q ∉ dom σ) ∧
  ∃ l' rows', (l' ∉ dom σ) ∧ rows_of τ q = Some (l', rows').

Lemma not_in_dom_mono (σ τ : store) (l : loc) :
  σ ⊆ τ → l ∉ dom τ → l ∉ dom σ.
Proof. intros Hsub Hl Hin. apply Hl. eapply subseteq_dom; eauto. Qed.

Lemma new_table_fresh (σ τ τ' : store) (rows : list row) (q : loc) :
  σ ⊆ τ → new_table rows τ = (q, τ') → fresh_table σ τ' q.
Proof.
  intros Hsub. unfold new_table.
  destruct (alloc (OList rows) τ) as [l τ1] eqn:E1. intros E2.
  apply alloc_spec in E1 as (Hl & -> & Hsub1).
  apply alloc_spec in E2 as (Hq & -> & Hsub2).
  assert (Hne : q ≠ l).
  { intros ->. apply Hq. rewrite dom_insert. set_solver. }
  split; [etrans; [exact Hsub|]; etrans; eauto|].
  split.
  { eapply not_in_dom_mono; [|exact Hq]. etrans; eauto. }
  exists l, rows. split; [eapply not_in_dom_mono; eauto|].
  unfold rows_of. rewrite lookup_insert_eq.
  rewrite lookup_insert_ne by exact Hne. now rewrite lookup_insert_eq.
Qed.

Lemma fresh_table_sub (σ τ : store) (q : loc) : fresh_table σ τ q → σ ⊆ τ.
Proof. now intros [? _]. Qed.

Lemma join_obj_fresh (σ τ τ' : store) (q t q' : loc) (on : string) :
  σ ⊆ τ → join_obj q t on τ = Ok (q', τ') → fresh_table σ τ' q'.
Proof.
  intros Hsub. unfold join_obj.
  destruct (read τ q) as [rows|]; [|discriminate].
  destruct (read τ t) as [others|]; [|discriminate].
  simpl. intros E. apply Ok_inj in E. eapply new_table_fresh; eauto.
Qed.

Definition join_step (on : string) (acc : result (loc * store)) (t : loc)
  : result (loc * store) :=
  let* (joined, σ') := acc in join_obj joined t on σ'.

Lemma fold_join_raise (on : string) (tables : list loc) (e : exn) :
  fold_left (join_step on) tables (Raise e) = Raise e.
Proof. induction tables; simpl; auto. Qed.

Lemma fold_join_fresh (σ : store) (on : string) (tables : list loc) :
  ∀ q τ p' σ',
    fresh_table σ τ q →
    fold_left (join_step on) tables (Ok (q, τ)) = Ok (p', σ') →
    fresh_table σ σ' p'.
Proof.
  induction tables as [|t tables IH]; intros q τ p' σ' Hq.
  - simpl. now intros [= <- <-].
  - simpl. destruct (join_obj q t on τ) as [[q1 τ1]|e] eqn:E.
    + apply IH. eapply join_obj_fresh; [|exact E]. now apply fresh_table_sub in Hq.
    + now rewrite fold_join_raise.
Qed.

(** [order_by] hands back its receiver when the sort raises. *)
Definition returns_self (c : call) (rows : list row) : bool :=
  match c with
  | OrderBy col desc => negb (is_ok (sorted_by col desc rows))
  | _ => false
  end.

(** [multi_join] over no table wraps the list of its receiver. *)
Definition shares_list (c : call) : bool :=
  match c with
  | MultiJoin [] _ => true
  | _ => false
  end.

Lemma rows_of_lookup (σ : store) (p l : loc) (rows : list row) :
  rows_of σ p = Some (l, rows) ↔
  σ !! p = Some (OTable l) ∧ σ !! l = Some (OList rows).
Proof.
  unfold rows_of. split.
  - destruct (σ !! p) as [[|l0]|]; try discriminate.
    destruct (σ !! l0) as [[rs|]|] eqn:El; try discriminate.
    now intros [= <- <-].
  - now intros [-> ->].
Qed.

Lemma read_rows_of (σ : store) (p l : loc) (rows : list row) :
  rows_of σ p = Some (l, rows) → read σ p = Ok rows.
Proof. unfold read. now intros ->. Qed.

(** C7, as the code has it. No operator changes an object of the store it
    is called in, its input list included. [filter], [select], [limit],
    [join], [group_by], [having], [multi_join] over at least one table, and
    [order_by] when the sort succeeds return a pipeline object that did
    not exist, on a list that did not exist. [order_by] returns its
    receiver itself when the sort raises, and [multi_join] over no table
    returns a new pipeline object on the list of its receiver. *)
Theorem operators_allocate_or_return_self
  (c : call) (p l : loc) (rows : list row) (σ : store) (p' : loc) (σ' : store) :
  rows_of σ p = Some (l, rows) →
  exec c p σ = Ok (p', σ') →
  σ ⊆ σ' ∧
  if returns_self c rows then p' = p ∧ σ' = σ
  else (p' ∉ dom σ) ∧
       ∃ l' rows', rows_of σ' p' = Some (l', rows') ∧
                   if shares_list c then l' = l else (l' ∉ dom σ).
Proof.
  intros Hrows Hexec.
  assert (Hread := read_rows_of _ _ _ _ Hrows).
  assert (Hfresh : ∀ res, new_table res σ = (p', σ') →
            σ ⊆ σ' ∧ (p' ∉ dom σ) ∧
            ∃ l' rows', rows_of σ' p' = Some (l', rows') ∧ (l' ∉ dom σ)).
  { intros res E. apply (new_table_fresh σ) in E as (Hs & Hp & l' & rows' & Hl & Hr);
      [|reflexivity].
    split; [exact Hs|]. split; [exact Hp|]. now exists l', rows'. }
  destruct c as [conds|cols|col desc|n|other on|tables on|cols|conds];
    simpl in Hexec |- *; try rewrite Hread in Hexec; simpl in Hexec.
  - destruct (where_ conds rows); [|discriminate]. simpl in Hexec.
    by_new_table Hexec Hfresh.
  - by_new_table Hexec Hfresh.
  - destruct (sorted_by col desc rows) as [res|e]; simpl.
    + by_new_table Hexec Hfresh.
    + injection Hexec as <- <-. split; [reflexivity|]. now split.
  - by_new_table Hexec Hfresh.
  - apply (join_obj_fresh σ) in Hexec as (Hs & Hp & l' & rows' & Hl & Hr);
      [|reflexivity].
    split; [exact Hs|]. split; [exact Hp|]. now exists l', rows'.
  - rewrite Hrows in Hexec.
    destruct (alloc (OTable l) σ) as [q τ] eqn:E.
    apply alloc_spec in E as (Hq & -> & Hsub).
    destruct tables as [|t tables].
    + simpl in Hexec. injection Hexec as <- <-.
      split; [exact Hsub|]. split; [exact Hq|].
      exists l, rows. split; [|reflexivity].
      apply rows_of_lookup in Hrows as [Hp Hl].
      apply rows_of_lookup. rewrite lookup_insert_eq. split; [reflexivity|].
      rewrite lookup_insert_ne; [exact Hl|].
      intros <-. apply Hq. apply elem_of_dom. now rewrite Hl.
    + simpl in Hexec.
      destruct (join_obj q t on (<[q:=OTable l]> σ)) as [[q1 τ1]|e] eqn:E1.
      * apply (join_obj_fresh σ) in E1; [|exact Hsub].
        apply (fold_join_fresh σ on tables _ _ _ _ E1) in Hexec
          as (Hs & Hp & l' & rows' & Hl & Hr).
        split; [exact Hs|]. split; [exact Hp|]. now exists l', rows'.
      * change (fold_left (join_step on) tables (Raise e) = Ok (p', σ')) in Hexec.
        now rewrite fold_join_raise in Hexec.
  - destruct (group_by cols rows); [|discriminate]. simpl in Hexec.
    by_new_table Hexec Hfresh.
  - destruct (having conds rows); [|discriminate]. simpl in Hexec.
    by_new_table Hexec Hfresh.
Qed.

End StoreProperties.

(** ** The tokenizer *)

Section TokenizerProperties.
Context `{PyFloat}.

(** Some character of [s] is the quote [q] with no backslash in front of
    it; [prev] is the character in front of [s]. *)
Fixpoint closes (q prev : ascii) (s : string) : bool :=
  match s with
  | EmptyString => false
  | String c s' =>
      (Ascii.eqb c q && negb (Ascii.eqb prev "\")) || closes q c s'
  end.

Lemma scan_quoted_unterminated (q : ascii) (s : string) :
  ∀ prev, closes q prev s = false →
          scan_quoted q prev s = (s, String.length s).
Proof.
  induction s as [|c s IH]; intros prev Hc; [reflexivity|].
  simpl in Hc |- *. apply orb_false_iff in Hc as [Hhere Hrest].
  now rewrite Hhere, (IH c Hrest).
Qed.

(** The scanner is [n] characters further once [skip] has run out. *)
Lemma tokenize_loop_skip (s : string) (tokens : list token) (skip : nat) :
  ∀ i rest,
    tokenize_loop s i rest skip tokens =
    tokenize_loop s (i + skip) (str_drop skip rest) 0 tokens.
Proof.
  induction skip as [|skip IH]; intros i rest.
  - now rewrite Nat.add_0_r.
  - destruct rest as [|c rest]; [reflexivity|].
    simpl. rewrite IH. f_equal. lia.
Qed.

Lemma tokenize_loop_skip_all (s : string) (tokens : list token) (rest : string) :
  ∀ i skip, (String.length rest <= skip)%nat →
            tokenize_loop s i rest skip tokens = Ok tokens.
Proof.
  induction rest as [|c rest IH]; intros i skip Hlen; [reflexivity|].
  simpl in Hlen. destruct skip as [|skip]; [lia|].
  simpl. apply IH. lia.
Qed.

Lemma is_quote_cases (q : ascii) :
  is_quote q = true → q = "'"%char ∨ q = "034"%char.
Proof.
  unfold is_quote. intros Hq. apply orb_true_iff in Hq as [Hq|Hq];
    apply Ascii.eqb_eq in Hq; auto.
Qed.

(** At a quote the scanner reads a text literal, whatever follows. *)
Lemma next_token_quote (s : string) (i : nat) (q : ascii) (body : string) :
  is_quote q = true →
  next_token s i q (String q body) =
  Ok (Some (LITERAL (AStr (fst (scan_quoted q q body)))),
      (snd (scan_quoted q q body) + 2)%nat).
Proof.
  intros Hq. apply is_quote_cases in Hq as [-> | ->];
    unfold next_token; cbn;
    destruct (scan_quoted _ _ body); reflexivity.
Qed.

(** The states of the scan of [s]: the offset, the text still ahead and
    the tokens so far, each time the loop looks for the next token. *)
Inductive scans_to (s : string) : nat → string → list token → Prop :=
| scans_start : scans_to s 0 s []
| scans_step i ch rest tokens tk n :
    scans_to s i (String ch rest) tokens →
    next_token s i ch (String ch rest) = Ok (tk, n) →
    scans_to s (S i + (n - 1)) (str_drop (n - 1) rest) (append_token tokens tk).

Lemma scans_to_loop (s : string) (i : nat) (rest : string) (tokens : list token) :
  scans_to s i rest tokens →
  tokenize_loop s 0 s 0 [] = tokenize_loop s i rest 0 tokens.
Proof.
  induction 1 as [|i ch rest tokens tk n _ IH Hnext]; [reflexivity|].
  rewrite IH. simpl. rewrite Hnext. simpl.
  apply tokenize_loop_skip.
Qed.

(** C10. When the scan of an expression arrives at a quote and no later
    character is that quote without a backslash in front of it, the
    tokenizer raises nothing: it returns the tokens read so far followed
    by one text literal, which is everything behind the quote. *)
Theorem unterminated_quote_reads_to_the_end
  (text : string) (i : nat) (q : ascii) (body : string) (tokens : list token) :
  scans_to (strip text) i (String q body) tokens →
  is_quote q = true →
  closes q q body = false →
  tokenize_expr text = Ok (tokens ++ [LITERAL (AStr body)]).
Proof.
  intros Hscan Hq Hopen. unfold tokenize_expr.
  rewrite (scans_to_loop _ _ _ _ Hscan). simpl.
  rewrite (next_token_quote _ _ _ _ Hq).
  rewrite (scan_quoted_unterminated _ _ _ Hopen). simpl.
  apply tokenize_loop_skip_all. lia.
Qed.

End TokenizerProperties.

(** ** The compiler: precedence *)

Section CompilerProperties.
Context `{PyFloat}.

(** *** Popping the operator stack *)

Definition is_sop (it : stack_item) : Prop :=
  match it with SOP _ => True | SLPAREN => False end.

(** the operators of a stack, in the order they are popped *)
Fixpoint rops (st : list stack_item) : list rpn_token :=
  match st with
  | [] => []
  | SOP v :: st' => ROP v :: rops st'
  | SLPAREN :: st' => rops st'
  end.

Lemma pop_while_out (f : string → bool) (st : list stack_item) :
  ∀ out, pop_while f out st =
         (out ++ fst (pop_while f [] st), snd (pop_while f [] st)).
Proof.
  induction st as [|[v|] st IH]; intros out; simpl;
    try (now rewrite app_nil_r).
  destruct (f v); [|now rewrite app_nil_r].
  rewrite IH, (IH [ROP v]). simpl. now rewrite <- app_assoc.
Qed.

(** what stops [pop_while f] at the top of [base] *)
Definition stops (f : string → bool) (base : list stack_item) : Prop :=
  match base with
  | SOP v :: _ => f v = false
  | _ => True
  end.

Lemma pop_while_app (f : string → bool) (loc base : list stack_item) :
  Forall is_sop loc → stops f base →
  ∀ out, pop_while f out (loc ++ base) =
         (out ++ fst (pop_while f [] loc), snd (pop_while f [] loc) ++ base).
Proof.
  intros Hloc Hbase. induction Hloc as [|[v|] loc Hv _ IH]; intros out.
  - simpl. rewrite app_nil_r.
    destruct base as [|[v|] base]; try reflexivity.
    simpl in Hbase |- *. now rewrite Hbase.
  - simpl. destruct (f v); [|now rewrite app_nil_r].
    rewrite IH, (pop_while_out f loc [ROP v]). simpl.
    now rewrite <- app_assoc.
  - destruct Hv.
Qed.

Lemma pop_while_kept (f : string → bool) (P : stack_item → Prop)
  (st : list stack_item) :
  Forall P st → ∀ out, Forall P (snd (pop_while f out st)).
Proof.
  induction 1 as [|[v|] st Hv Hst IH]; intros out; simpl; auto.
  destruct (f v); [apply IH|]. now constructor.
Qed.

Lemma pop_while_all (f : string → bool) (st : list stack_item) :
  Forall (fun it => match it with SOP v => f v = true | SLPAREN => False end) st →
  ∀ out, pop_while f out st = (out ++ rops st, []).
Proof.
  induction 1 as [|[v|] st Hv _ IH]; intros out; simpl.
  - now rewrite app_nil_r.
  - rewrite Hv, IH. now rewrite <- app_assoc.
  - destruct Hv.
Qed.

Lemma drain_app (loc base : list stack_item) :
  Forall is_sop loc → ∀ out, drain out (loc ++ base) = drain (out ++ rops loc) base.
Proof.
  induction 1 as [|[v|] loc Hv _ IH]; intros out; simpl.
  - now rewrite app_nil_r.
  - rewrite IH. now rewrite <- app_assoc.
  - destruct Hv.
Qed.

(** *** The read-ahead of [IN] and the tokens it goes over *)

Lemma rpn_loop_skip (pre rest : list token) :
  ∀ out opstack,
    rpn_loop (pre ++ rest) (length pre) out opstack = rpn_loop rest 0 out opstack.
Proof. induction pre as [|t pre IH]; intros out opstack; [reflexivity|apply IH]. Qed.

Lemma rpn_loop_skip_list (items rest : list token) :
  ∀ out opstack,
    rpn_loop (items ++ RPAREN :: rest) (S (length items)) out opstack =
    rpn_loop rest 0 out opstack.
Proof.
  intros out opstack.
  replace (items ++ RPAREN :: rest) with ((items ++ [RPAREN]) ++ rest)
    by now rewrite <- app_assoc.
  replace (S (length items)) with (length (items ++ [RPAREN]))
    by (rewrite length_app; simpl; lia).
  apply rpn_loop_skip.
Qed.

Lemma scan_in_list_closed (items rest : list token) :
  Forall (fun t => t ≠ RPAREN) items →
  ∀ vals current,
    scan_in_list (items ++ RPAREN :: rest) vals current =
    scan_in_list (items ++ [RPAREN]) vals current ∧
    ∀ vs n, scan_in_list (items ++ [RPAREN]) vals current = Ok (vs, n) →
            n = S (length items).
Proof.
  induction 1 as [|t items Ht _ IH]; intros vals current.
  - simpl. split; [reflexivity|].
    intros vs n. destruct (close_element vals current); simpl; [|discriminate].
    now intros [= _ <-].
  - assert (Hstep : ∀ vals' current',
              (let* (vs, n) := scan_in_list (items ++ RPAREN :: rest) vals' current' in
               Ok (vs, S n)) =
              (let* (vs, n) := scan_in_list (items ++ [RPAREN]) vals' current' in
               Ok (vs, S n)) ∧
              ∀ vs n,
                (let* (vs, n) := scan_in_list (items ++ [RPAREN]) vals' current' in
                 Ok (vs, S n)) = Ok (vs, n) → n = S (S (length items))).
    { intros vals' current'. destruct (IH vals' current') as [-> Hn].
      split; [reflexivity|]. intros vs n.
      destruct (scan_in_list (items ++ [RPAREN]) vals' current')
        as [[vs' n']|]; simpl; [|discriminate].
      intros [= _ <-]. f_equal. eapply Hn. reflexivity. }
    destruct t; try (now destruct Ht); simpl; try apply Hstep.
    destruct (close_element vals current) as [vals'|]; simpl;
      [apply Hstep|split; [reflexivity|discriminate]].
Qed.

(** *** Token sequences closed under the compiler

    [Chunk p ts]: in [ts] every parenthesis is matched and every [IN] has
    its list, closed by a right parenthesis; outside parentheses every
    operator has precedence [p] at least. *)
Inductive Chunk : Z → list token → Prop :=
| Chunk_nil p : Chunk p []
| Chunk_literal p a ts : Chunk p ts → Chunk p (LITERAL a :: ts)
| Chunk_ident p name ts : Chunk p ts → Chunk p (IDENT name :: ts)
| Chunk_comma p ts : Chunk p ts → Chunk p (COMMA :: ts)
| Chunk_op p op ts :
    String.eqb (upper op) "IN" = false → p <= prec op →
    Chunk p ts → Chunk p (OP op :: ts)
| Chunk_in p op items ts :
    String.eqb op "NOT" = false → String.eqb (upper op) "IN" = true →
    p <= prec "IN" →
    Forall (fun t => t ≠ RPAREN) items →
    Chunk p ts → Chunk p (OP op :: LPAREN :: items ++ RPAREN :: ts)
| Chunk_paren p inner ts :
    Chunk 0 inner → Chunk p ts → Chunk p (LPAREN :: inner ++ RPAREN :: ts).

(** operators only, each of precedence [p] at least *)
Definition ops_from (p : Z) (st : list stack_item) : Prop :=
  Forall (fun it => match it with SOP v => p <= prec v | SLPAREN => False end) st.

(** the stack below is closed to operators of precedence [p] and more *)
Definition barrier (p : Z) (base : list stack_item) : Prop :=
  match base with
  | SOP v :: _ => prec v < p
  | _ => True
  end.

Lemma ops_from_sop (p : Z) (st : list stack_item) :
  ops_from p st → Forall is_sop st.
Proof. intros Hst. eapply Forall_impl; [exact Hst|]. now intros [v|]. Qed.

Lemma barrier_stops_ge (p : Z) (op : string) (base : list stack_item) :
  barrier p base → p <= prec op → stops (fun v => prec v >=? prec op) base.
Proof.
  destruct base as [|[v|] base]; simpl; auto.
  intros Hv Hop. rewrite Z.geb_leb. apply Z.leb_gt. lia.
Qed.

Lemma barrier_stops_gt (p : Z) (op : string) (base : list stack_item) :
  barrier p base → p <= prec op → stops (fun v => prec v >? prec op) base.
Proof.
  destruct base as [|[v|] base]; simpl; auto.
  intros Hv Hop. rewrite Z.gtb_ltb. apply Z.ltb_ge. lia.
Qed.

Definition scanned : Type := result (list rpn_token * list stack_item).

(** what the loop does behind a scanned chunk *)
Definition resume (r : scanned) (rest : list token) (out : list rpn_token)
  (base : list stack_item) : scanned :=
  let* (em, loc) := r in rpn_loop rest 0 (out ++ em) (loc ++ base).

(** a chunk that starts by emitting [em0] *)
Definition emitting (em0 : list rpn_token) (r : scanned) : scanned :=
  let* (em, loc) := r in Ok (em0 ++ em, loc).

Lemma resume_emitting (em0 : list rpn_token) (r : scanned)
  (rest : list token) (out : list rpn_token) (base : list stack_item) :
  resume (emitting em0 r) rest out base = resume r rest (out ++ em0) base.
Proof.
  destruct r as [[em loc]|e]; simpl; [|reflexivity]. now rewrite app_assoc.
Qed.

Lemma emitting_ops (p : Z) (em0 : list rpn_token) (r : scanned) :
  (∀ em loc, r = Ok (em, loc) → ops_from p loc) →
  ∀ em loc, emitting em0 r = Ok (em, loc) → ops_from p loc.
Proof.
  intros Hr em loc. destruct r as [[em' loc']|e]; simpl; [|discriminate].
  intros [= _ <-]. eapply Hr. reflexivity.
Qed.

(** The loop over a chunk: what it emits and what it leaves on the stack
    depend on the chunk and on the operators above the barrier alone. *)
Lemma chunk_scan (p : Z) (ts : list token) :
  Chunk p ts →
  ∀ loc, ops_from p loc →
    ∃ r : scanned,
      (∀ em loc', r = Ok (em, loc') → ops_from p loc') ∧
      ∀ rest out base,
        barrier p base →
        rpn_loop (ts ++ rest) 0 out (loc ++ base) = resume r rest out base.
Proof.
  induction 1 as [p|p a ts _ IH|p name ts _ IH|p ts _ IH|p op ts Hin Hp _ IH
                  |p op items ts Hnot Hin Hp Hitems _ IH
                  |p inner ts _ IHin _ IH]; intros loc Hloc.
  - exists (Ok ([], loc)). split; [now intros em loc' [= _ <-]|].
    intros rest out base _. simpl. now rewrite app_nil_r.
  - destruct (IH loc Hloc) as (r & Hr & Hscan).
    exists (emitting [RLITERAL (atom_value a)] r).
    split; [now apply emitting_ops|].
    intros rest out base Hb. rewrite resume_emitting. simpl. now apply Hscan.
  - destruct (IH loc Hloc) as (r & Hr & Hscan).
    exists (emitting [RIDENT name] r).
    split; [now apply emitting_ops|].
    intros rest out base Hb. rewrite resume_emitting. simpl. now apply Hscan.
  - destruct (IH loc Hloc) as (r & Hr & Hscan).
    exists r. split; [exact Hr|].
    intros rest out base Hb. simpl. now apply Hscan.
  - (* an operator *)
    set (f := fun v => if String.eqb op "NOT" then prec v >? prec op
                       else prec v >=? prec op).
    assert (Hloop : ∀ rest out st,
               rpn_loop (OP op :: ts ++ rest) 0 out st =
               let (out', st') := pop_while f out st in
               rpn_loop (ts ++ rest) 0 out' (SOP op :: st')).
    { intros rest out st. simpl. rewrite Hin. unfold f.
      destruct (String.eqb op "NOT"); reflexivity. }
    assert (Hloc' : ops_from p (SOP op :: snd (pop_while f [] loc))).
    { constructor; [exact Hp|]. now apply pop_while_kept. }
    destruct (IH _ Hloc') as (r & Hr & Hscan).
    exists (emitting (fst (pop_while f [] loc)) r).
    split; [now apply emitting_ops|].
    intros rest out base Hb. rewrite resume_emitting.
    change ((OP op :: ts) ++ rest) with (OP op :: ts ++ rest).
    rewrite Hloop, pop_while_app.
    + apply (Hscan rest _ base Hb).
    + now apply (ops_from_sop p).
    + unfold f. destruct (String.eqb op "NOT");
        [now apply (barrier_stops_gt p)|now apply (barrier_stops_ge p)].
  - (* IN and its list *)
    set (f := fun v => prec v >=? prec "IN").
    destruct (scan_in_list (items ++ [RPAREN]) [] []) as [[vals n]|e] eqn:Escan.
    + assert (Hn : n = S (length items)).
      { eapply (scan_in_list_closed items [] Hitems). exact Escan. }
      set (lit := RLITERAL (VList (map coerce vals))).
      assert (Hloc' : ops_from p (SOP "IN" :: snd (pop_while f [] loc))).
      { constructor; [exact Hp|]. now apply pop_while_kept. }
      destruct (IH _ Hloc') as (r & Hr & Hscan).
      exists (emitting (lit :: fst (pop_while f [] loc)) r).
      split; [now apply emitting_ops|].
      intros rest out base Hb. rewrite resume_emitting.
      simpl. rewrite Hnot, Hin.
      rewrite <- app_assoc. simpl.
      rewrite (proj1 (scan_in_list_closed items (ts ++ rest) Hitems [] [])).
      rewrite Escan. simpl.
      rewrite (pop_while_app f loc base);
        [|now apply (ops_from_sop p)|now apply (barrier_stops_ge p)].
      subst n. rewrite rpn_loop_skip_list.
      replace (out ++ lit :: fst (pop_while f [] loc))
        with ((out ++ [lit]) ++ fst (pop_while f [] loc))
        by now rewrite <- app_assoc.
      apply (Hscan rest _ base Hb).
    + exists (Raise e). split; [discriminate|].
      intros rest out base Hb. simpl. rewrite Hnot, Hin.
      rewrite <- app_assoc. simpl.
      rewrite (proj1 (scan_in_list_closed items (ts ++ rest) Hitems [] [])).
      now rewrite Escan.
  - (* a parenthesis and what it holds *)
    destruct (IHin [] ltac:(constructor)) as (rin & Hrin & Hscanin).
    destruct (IH loc Hloc) as (r & Hr & Hscan).
    exists (let* (em, loc') := rin in emitting (em ++ rops loc') r).
    split.
    { intros em loc'. destruct rin as [[em1 loc1]|e]; simpl; [|discriminate].
      now apply emitting_ops. }
    intros rest out base Hb. simpl. rewrite <- app_assoc.
    pose proof (Hscanin (RPAREN :: ts ++ rest) out (SLPAREN :: loc ++ base) I)
      as E.
    cbn [app] in E |- *. rewrite E. clear E.
    destruct rin as [[em1 loc1]|e]; simpl; [|reflexivity].
    assert (H1 : Forall is_sop loc1).
    { apply (ops_from_sop 0). eapply Hrin. reflexivity. }
    rewrite (pop_while_app _ loc1 (SLPAREN :: loc ++ base) H1 I).
    rewrite (pop_while_all (fun _ => true) loc1).
    2:{ eapply Forall_impl; [exact H1|]. now intros [v|]. }
    simpl. rewrite resume_emitting, app_assoc.
    apply (Hscan rest _ base Hb).
Qed.

(** [A OR B AND C] and [A OR (B AND C)] as token sequences *)
Definition flat (A B C : list token) : list token :=
  A ++ OP "OR" :: B ++ OP "AND" :: C.
Definition grouped (A B C : list token) : list token :=
  A ++ OP "OR" :: LPAREN :: B ++ OP "AND" :: C ++ [RPAREN].

Lemma flat_grouped_loop (A B C : list token) :
  Chunk 0 A → Chunk 2 B → Chunk 2 C →
  (let* (out, opstack) := rpn_loop (flat A B C) 0 [] [] in drain out opstack) =
  (let* (out, opstack) := rpn_loop (grouped A B C) 0 [] [] in drain out opstack).
Proof.
  intros HA HB HC. unfold flat, grouped.
  destruct (chunk_scan 0 A HA [] ltac:(constructor)) as (rA & HrA & HscanA).
  pose proof (HscanA (OP "OR" :: B ++ OP "AND" :: C) [] [] I) as E1.
  pose proof (HscanA (OP "OR" :: LPAREN :: B ++ OP "AND" :: C ++ [RPAREN])
                [] [] I) as E2.
  cbn [app] in E1, E2. rewrite E1, E2. clear E1 E2.
  destruct rA as [[emA locA]|e]; [|reflexivity].
  unfold resume, bind. rewrite app_nil_r. cbn [app].
  (* OR *)
  change (rpn_loop (OP "OR" :: ?ts) 0 ?out ?st)
    with (let (out', st') := pop_while (fun v => prec v >=? prec "OR") out st in
          rpn_loop ts 0 out' (SOP "OR" :: st')).
  destruct (pop_while (fun v => prec v >=? prec "OR") emA locA) as [out1 st1].
  change (rpn_loop (LPAREN :: ?ts) 0 ?out ?st)
    with (rpn_loop ts 0 out (SLPAREN :: st)).
  (* B *)
  destruct (chunk_scan 2 B HB [] ltac:(constructor)) as (rB & HrB & HscanB).
  pose proof (HscanB (OP "AND" :: C) out1 (SOP "OR" :: st1)
                ltac:(simpl; reflexivity)) as E1.
  pose proof (HscanB (OP "AND" :: C ++ [RPAREN]) out1
                (SLPAREN :: SOP "OR" :: st1) I) as E2.
  cbn [app] in E1, E2. rewrite E1, E2. clear E1 E2.
  destruct rB as [[emB locB]|e]; [|reflexivity].
  specialize (HrB _ _ eq_refl).
  unfold resume, bind.
  (* AND *)
  change (rpn_loop (OP "AND" :: ?ts) 0 ?out ?st)
    with (let (out', st') := pop_while (fun v => prec v >=? prec "AND") out st in
          rpn_loop ts 0 out' (SOP "AND" :: st')).
  assert (Hpop : ∀ base out,
             stops (fun v => prec v >=? prec "AND") base →
             pop_while (fun v => prec v >=? prec "AND") out (locB ++ base) =
             (out ++ rops locB, base)).
  { intros base out Hstop.
    rewrite (pop_while_app _ locB base (ops_from_sop 2 _ HrB) Hstop).
    rewrite (pop_while_all _ locB); [reflexivity|].
    eapply Forall_impl; [exact HrB|]. intros [v|]; [|easy].
    intros Hv. rewrite Z.geb_leb. now apply Z.leb_le. }
  rewrite (Hpop (SOP "OR" :: st1)) by reflexivity.
  rewrite (Hpop (SLPAREN :: SOP "OR" :: st1)) by exact I.
  (* C *)
  assert (Hand : ops_from 2 [SOP "AND"]).
  { constructor; [simpl; reflexivity|constructor]. }
  destruct (chunk_scan 2 C HC [SOP "AND"] Hand) as (rC & HrC & HscanC).
  pose proof (HscanC [] (out1 ++ emB ++ rops locB) (SOP "OR" :: st1)
                ltac:(simpl; reflexivity)) as E1.
  pose proof (HscanC [RPAREN] (out1 ++ emB ++ rops locB)
                (SLPAREN :: SOP "OR" :: st1) I) as E2.
  rewrite app_nil_r in E1. cbn [app] in E1, E2.
  rewrite <- !app_assoc. rewrite E1, E2. clear E1 E2.
  destruct rC as [[emC locC]|e]; [|reflexivity].
  specialize (HrC _ _ eq_refl).
  assert (HlocC := ops_from_sop 2 _ HrC).
  unfold resume, bind.
  (* the right parenthesis, and the end *)
  cbn [rpn_loop].
  rewrite (pop_while_app _ locC (SLPAREN :: SOP "OR" :: st1) HlocC I).
  rewrite (pop_while_all (fun _ => true) locC).
  2:{ eapply Forall_impl; [exact HlocC|]. now intros [v|]. }
  cbn [fst snd app]. now rewrite (drain_app locC _ HlocC).
Qed.

(** C5. [A OR B AND C] compiles to the postfix sequence of
    [A OR (B AND C)], so the two evaluate alike on every record: [AND]
    binds tighter than [OR], the precedences being
    [NOT] > [CONTAINS] = [IN] = the comparisons > [AND] > [OR]. Here [A] is
    any token sequence whose parentheses and [IN] lists are closed, and [B]
    and [C] are such sequences without an [OR] outside parentheses. *)
Theorem and_binds_tighter_than_or (A B C : list token) :
  Chunk 0 A → Chunk 2 B → Chunk 2 C →
  (prec "OR" < prec "AND" ∧ prec "AND" < prec "=" ∧ prec "=" < prec "NOT" ∧
   Forall (fun op => prec op = prec "=")
     ["CONTAINS"; "IN"; "!="; ">"; "<"; ">="; "<="]) ∧
  to_rpn (flat A B C) = to_rpn (grouped A B C) ∧
  ∀ r : row,
    (let* e := to_rpn (flat A B C) in eval_row e r) =
    (let* e := to_rpn (grouped A B C) in eval_row e r).
Proof.
  intros HA HB HC.
  assert (Hrpn : to_rpn (flat A B C) = to_rpn (grouped A B C)).
  { pose proof (flat_grouped_loop A B C HA HB HC) as E. unfold to_rpn.
    destruct (rpn_loop (flat A B C) 0 [] []) as [[o1 s1]|e1];
      destruct (rpn_loop (grouped A B C) 0 [] []) as [[o2 s2]|e2];
      simpl in E |- *; try (now rewrite E);
      destruct (drain _ _); simpl in *; congruence. }
  split; [|split; [exact Hrpn|now intros r; rewrite Hrpn]].
  repeat split; try reflexivity.
  repeat constructor.
Qed.

End CompilerProperties.

(** ** The evaluator on [NOT IN] *)

Section EvaluatorProperties.
Context `{PyFloat}.

(** The tokenizer has no [NOT IN] token: [c NOT IN (...)] is read as the
    operators [NOT] and [IN], and [NOT] leaves the list as the compiler
    pops it before [IN]. On the postfix sequence that results, [NOT] turns
    the list into a boolean and [IN] then asks for membership in that
    boolean, which raises on every record. *)
Lemma not_then_in_raises (r : row) (name : string) (vals : list value) :
  eval_row [RIDENT name; RLITERAL (VList vals); ROP "NOT"; ROP "IN"] r
  = Raise TypeError.
Proof. reflexivity. Qed.

End EvaluatorProperties.

(** * The properties on concrete tables and expressions *)

Definition T : list row :=
  [ [("id", VInt 1); ("amt", VInt 10)];
    [("id", VInt 1); ("amt", VInt 20)];
    [("id", VInt 2); ("amt", VInt 5)] ].

(** C6. [SELECT id FROM T WHERE amt > 8 ORDER BY id DESC LIMIT 1] on the
    table [T] of the specification returns the one record [{id: 1}]. *)
Theorem scenario_where_order_limit :
  run [("T", T)] "SELECT id FROM T WHERE amt > 8 ORDER BY id DESC LIMIT 1"
  = Ok [[("id", VInt 1)]].
Proof. reflexivity. Qed.

(** C1, the defect. [having] has no branch for [contains], [in] and
    [not in]: a predicate with one of them falls to the [else] of its
    check and rejects every record, where [where] selects the matching
    ones. *)
Theorem having_lacks_where_operators :
  let people := [[("name", VStr "abc"); ("id", VInt 1)]] in
  (where_ [("name", "contains", VStr "b")] people = Ok people ∧
   having [("name", "contains", VStr "b")] people = Ok []) ∧
  (where_ [("id", "in", VList [VInt 1; VInt 2])] people = Ok people ∧
   having [("id", "in", VList [VInt 1; VInt 2])] people = Ok []) ∧
  (where_ [("id", "not in", VList [VInt 7])] people = Ok people ∧
   having [("id", "not in", VList [VInt 7])] people = Ok []).
Proof. repeat split; reflexivity. Qed.

(** C2, the defect. The guard of an ordering predicate tests the value of
    the record only: a number in the record against a text literal reaches
    [v > val], and the [TypeError] of that comparison leaves [where]. *)
Theorem where_raises_on_text_literal :
  where_ [("amt", ">", VStr "x")] T = Raise TypeError.
Proof. reflexivity. Qed.

(** C3, the defect. [c NOT IN (1, 2)] compiles to [c [1, 2] NOT IN], and
    its evaluation raises [TypeError] on a record whose [c] is in the
    list and on one whose [c] is not. *)
Theorem not_in_raises :
  parse_boolean_expression "c NOT IN (1, 2)"
  = Ok [RIDENT "c"; RLITERAL (VList [VInt 1; VInt 2]); ROP "NOT"; ROP "IN"] ∧
  (let* e := parse_boolean_expression "c NOT IN (1, 2)" in
   eval_row e [("c", VInt 1)]) = Raise TypeError ∧
  (let* e := parse_boolean_expression "c NOT IN (1, 2)" in
   eval_row e [("c", VInt 3)]) = Raise TypeError.
Proof. repeat split; reflexivity. Qed.

(** C4, the defect. The read-ahead of [IN] runs to the end of the tokens
    when no right parenthesis closes the list: nothing is raised, the
    element being read is dropped, and the filter then runs on the
    records. *)
Theorem unclosed_in_list_compiles :
  to_rpn [IDENT "id"; OP "IN"; LPAREN; LITERAL (AInt 1); COMMA; LITERAL (AInt 2)]
  = Ok [RIDENT "id"; RLITERAL (VList [VInt 1]); ROP "IN"] ∧
  parse_boolean_expression "id IN (1, 2"
  = Ok [RIDENT "id"; RLITERAL (VList [VInt 1]); ROP "IN"] ∧
  run [("T", T)] "SELECT amt FROM T WHERE id IN (1, 2"
  = Ok [[("amt", VInt 10)]; [("amt", VInt 20)]].
Proof. repeat split; reflexivity. Qed.

(** *** [limit] *)

(** C8 fails for a negative [n]: [limit(-1)] drops the last record at each
    call. *)
Lemma limit_negative_not_idempotent :
  limit (-1) (limit (-1) T) ≠ limit (-1) T.
Proof. unfold limit, slice_to. simpl. discriminate. Qed.

Lemma limit_idempotent_nonneg_witness :
  (length (limit 2 T) <= length T)%nat ∧
  limit 2 (limit 2 T) = limit 2 T ∧
  limit 5 T = T.
Proof.
  destruct (limit_idempotent_nonneg 2 T) as (Hlen & _ & Hidem).
  destruct (limit_idempotent_nonneg 5 T) as (_ & Hall & _).
  split; [exact Hlen|]. split.
  - apply Hidem. lia.
  - apply Hall. simpl. lia.
Defined.

(** *** [join] *)

Lemma join_matches_null_keys_witness :
  let l : row := [("name", VStr "a")] in
  let r : row := [("size", VInt 3)] in
  In (merged l r) (join_ [l] [[("k", VInt 1)]; r; [("k", VNone)]] "k").
Proof.
  intros l r.
  apply (join_matches_null_keys [l] [[("k", VInt 1)]; r; [("k", VNone)]] "k" l).
  - simpl. now left.
  - reflexivity.
  - simpl. right. now left.
  - reflexivity.
Defined.

(** *** Pipeline objects *)

(** a list whose [a] values cannot be ordered, and a pipeline on it *)
Definition mixed_store : gmap loc object :=
  <[2%positive := OTable 1]>
    (<[1%positive := OList [[("a", VInt 1)]; [("a", VStr "x")]]]> ∅).

(** C7 fails for [order_by] on values that cannot be ordered: the call
    returns the pipeline object it was called on, in an unchanged store. *)
Lemma order_by_returns_self :
  exec (OrderBy "a" false) 2%positive mixed_store
  = Ok (2%positive, mixed_store) ∧
  2%positive ∈ dom mixed_store.
Proof.
  split; [reflexivity|].
  apply elem_of_dom. exists (OTable 1). reflexivity.
Qed.

Lemma operators_allocate_or_return_self_witness :
  match exec (Limit 1) 2%positive mixed_store with
  | Ok (p', σ') => mixed_store ⊆ σ' ∧ p' ∉ dom mixed_store
  | Raise _ => False
  end.
Proof.
  destruct (exec (Limit 1) 2%positive mixed_store) as [[p' σ']|e] eqn:E.
  - pose proof (operators_allocate_or_return_self (Limit 1) 2%positive
                  1%positive _ mixed_store p' σ' eq_refl E) as [Hsub Hnew].
    simpl in Hnew. split; [exact Hsub|apply Hnew].
  - discriminate E.
Defined.

(** *** The tokenizer *)

Lemma unterminated_quote_reads_to_the_end_witness :
  tokenize_expr "name = 'abc def"
  = Ok [IDENT "name"; OP "="; LITERAL (AStr "abc def")].
Proof.
  apply (unterminated_quote_reads_to_the_end
           "name = 'abc def" 7 "'" "abc def" [IDENT "name"; OP "="]).
  - pose proof (scans_start "name = 'abc def") as S0.
    pose proof (scans_step _ _ _ _ _ (Some (IDENT "name")) 4 S0 eq_refl) as S1.
    pose proof (scans_step _ _ _ _ _ None 1 S1 eq_refl) as S2.
    pose proof (scans_step _ _ _ _ _ (Some (OP "=")) 1 S2 eq_refl) as S3.
    exact (scans_step _ _ _ _ _ None 1 S3 eq_refl).
  - reflexivity.
  - reflexivity.
Defined.

(** *** Precedence *)

Definition cmp_tokens (col : string) (n : Z) : list token :=
  [IDENT col; OP "="; LITERAL (AInt n)].

Lemma cmp_tokens_chunk (p : Z) (col : string) (n : Z) :
  p <= 4 → Chunk p (cmp_tokens col n).
Proof.
  intros Hp. apply Chunk_ident, Chunk_op; [reflexivity|exact Hp|].
  apply Chunk_literal, Chunk_nil.
Qed.

(** [b IN (2, 3)] *)
Definition in_tokens : list token :=
  [IDENT "b"; OP "IN"; LPAREN; LITERAL (AInt 2); COMMA; LITERAL (AInt 3);
   RPAREN].

Lemma in_tokens_chunk : Chunk 2 in_tokens.
Proof.
  apply Chunk_ident.
  apply (Chunk_in 2 "IN" [LITERAL (AInt 2); COMMA; LITERAL (AInt 3)] []);
    try reflexivity; [now compute| |apply Chunk_nil].
  repeat constructor; discriminate.
Qed.

(** [(c = 3 OR d = 4)] *)
Definition paren_tokens : list token :=
  LPAREN :: (cmp_tokens "c" 3 ++ OP "OR" :: cmp_tokens "d" 4) ++ [RPAREN].

Lemma paren_tokens_chunk : Chunk 2 paren_tokens.
Proof.
  apply (Chunk_paren 2 _ []); [|apply Chunk_nil].
  apply Chunk_ident, Chunk_op; [reflexivity|now compute|].
  apply Chunk_literal, Chunk_op; [reflexivity|now compute|].
  apply cmp_tokens_chunk. lia.
Qed.

Lemma and_binds_tighter_than_or_witness :
  let A := cmp_tokens "a" 1 in
  let B := in_tokens in
  let C := paren_tokens in
  to_rpn (flat A B C) = to_rpn (grouped A B C) ∧
  (let* e := to_rpn (flat A B C) in
   eval_row e [("a", VInt 1); ("b", VInt 0); ("c", VInt 0)]) = Ok true ∧
  (let* e := to_rpn (flat A B C) in
   eval_row e [("a", VInt 0); ("b", VInt 2); ("c", VInt 0)]) = Ok false.
Proof.
  intros A B C.
  destruct (and_binds_tighter_than_or A B C) as (_ & Hrpn & _).
  - apply cmp_tokens_chunk. lia.
  - apply in_tokens_chunk.
  - apply paren_tokens_chunk.
  - split; [exact Hrpn|split; reflexivity].
Defined.

(** The same from the text of the two expressions, on a record where
    [(A OR B) AND C] would be false. *)
Example precedence_on_text :
  parse_boolean_expression "a = 1 OR b = 2 AND c = 3"
  = parse_boolean_expression "a = 1 OR (b = 2 AND c = 3)" ∧
  (let* e := parse_boolean_expression "a = 1 OR b = 2 AND c = 3" in
   eval_row e [("a", VInt 1); ("b", VInt 0); ("c", VInt 0)]) = Ok true.
Proof. split; reflexivity. Qed.

(** * Further properties of the pipeline operators *)

Section FilterProperties.
Context `{PyFloat}.

(** [p(x)] returned [True] *)
Definition passes {A} (p : A → result bool) (x : A) : bool :=
  match p x with Ok true => true | _ => false end.

(** A comprehension that ends holds the elements that passed, in order. *)
Lemma filterM_filter {A} (p : A → result bool) (l l' : list A) :
  filterM p l = Ok l' → l' = List.filter (passes p) l.
Proof.
  revert l'. induction l as [|x l IH]; intros l'; simpl.
  - now intros [= <-].
  - unfold passes. destruct (p x) as [b|]; simpl; [|discriminate].
    destruct (filterM p l) as [ys|]; simpl; [|discriminate].
    intros [= <-]. rewrite (IH ys eq_refl). now destruct b.
Qed.

Lemma filterM_passing {A} (p : A → result bool) (l : list A) :
  Forall (fun x => p x = Ok true) l → filterM p l = Ok l.
Proof.
  induction 1 as [|x l Hx _ IH]; simpl; [reflexivity|].
  now rewrite Hx, IH.
Qed.

Lemma filterM_idempotent {A} (p : A → result bool) (l l' : list A) :
  filterM p l = Ok l' → filterM p l' = Ok l'.
Proof.
  intros Hl. apply filterM_passing.
  rewrite (filterM_filter p l l' Hl).
  apply List.Forall_forall. intros x Hx. apply filter_In in Hx as [_ Hx].
  unfold passes in Hx. now destruct (p x) as [[|]|].
Qed.

Lemma filterM_sublist {A} (p : A → result bool) (l l' : list A) :
  filterM p l = Ok l' → sublist l' l.
Proof.
  intros Hl. rewrite (filterM_filter p l l' Hl). clear Hl.
  induction l as [|x l IH]; simpl; [constructor|].
  destruct (passes p x); now constructor.
Qed.

(** one check after the other, the second only on what passed the first *)
Definition and_then {A} (p q : A → result bool) (x : A) : result bool :=
  let* b := p x in if b then q x else Ok false.

Lemma filterM_and_then {A} (p q : A → result bool) (l l1 l2 : list A) :
  filterM p l = Ok l1 → filterM q l1 = Ok l2 →
  filterM (and_then p q) l = Ok l2.
Proof.
  revert l1 l2. induction l as [|x l IH]; intros l1 l2; simpl.
  - intros [= <-]. simpl. now intros [= <-].
  - unfold and_then at 1. destruct (p x) as [b|]; simpl; [|discriminate].
    destruct (filterM p l) as [ys|] eqn:E; simpl; [|discriminate].
    intros [= <-]. destruct b; simpl.
    + destruct (q x) as [c|]; simpl; [|discriminate].
      destruct (filterM q ys) as [zs|] eqn:E2; simpl; [|discriminate].
      intros [= <-]. now rewrite (IH ys zs eq_refl E2).
    + intros E2. now rewrite (IH ys l2 eq_refl E2).
Qed.

Lemma filterM_ext {A} (p q : A → result bool) (l : list A) :
  (∀ x, p x = q x) → filterM p l = filterM q l.
Proof. intros Hpq. induction l as [|x l IH]; simpl; [reflexivity|]. now rewrite Hpq, IH. Qed.

(** The check of a concatenated predicate list is the check of the first
    list and then, on a record that passed, the check of the second. *)
Lemma where_check_app (P Q : list condition) (r : row) :
  where_check (P ++ Q) r = and_then (where_check P) (where_check Q) r.
Proof.
  unfold and_then.
  induction P as [|[[col op] val] P IH]; simpl.
  - now destruct (where_check Q r).
  - repeat match goal with
           | |- context [String.eqb op ?s] => destruct (String.eqb op s)
           end;
      repeat match goal with
             | |- context [num_and_order ?o ?v ?w] =>
                 destruct (num_and_order o v w) as [[|]|]; simpl
             | |- context [py_in ?v ?w] =>
                 destruct (py_in v w) as [[|]|]; simpl
             | |- context [negb ?b] => destruct b; simpl
             | |- context [match dict_get col r with _ => _ end] =>
                 destruct (dict_get col r); simpl
             | |- context [match val with _ => _ end] => destruct val; simpl
             | |- context [str_contains ?a ?b] =>
                 destruct (str_contains a b); simpl
             end; try reflexivity; try exact IH.
Qed.

(** X1. What [where] returns is a sublist of its input: the records that
    passed the check, each once and in their order. Filtering that result
    by the same predicate list returns it unchanged, and with no predicate
    [where] returns all the records. *)
Theorem where_selects_in_order (P : list condition) (rows res : list row) :
  where_ P rows = Ok res →
  sublist res rows ∧
  res = List.filter (passes (where_check P)) rows ∧
  where_ P res = Ok res ∧
  where_ [] rows = Ok rows.
Proof.
  intros Hres. split; [now apply (filterM_sublist _ _ _ Hres)|].
  split; [now apply filterM_filter|].
  split; [now apply (filterM_idempotent _ _ _ Hres)|].
  apply filterM_passing. now apply List.Forall_forall.
Qed.

(** X2. Two filters in a row are the filter by the two predicate lists put
    together. *)
Theorem where_chain (P Q : list condition) (rows mid res : list row) :
  where_ P rows = Ok mid → where_ Q mid = Ok res →
  where_ (P ++ Q) rows = Ok res.
Proof.
  intros HP HQ. unfold where_.
  rewrite (filterM_ext _ _ rows (where_check_app P Q)).
  now apply (filterM_and_then _ _ rows mid res).
Qed.

End FilterProperties.

Section OperatorProperties.
Context `{PyFloat}.

(** the operator names that [where] has a branch for *)
Definition known_op (op : string) : bool :=
  existsb (String.eqb op)
    ["="; "!="; ">"; "<"; ">="; "<="; "contains"; "in"; "not in"].

Lemma where_check_unknown (col op : string) (val : value)
  (rest : list condition) (r : row) :
  known_op op = false → where_check ((col, op, val) :: rest) r = Ok false.
Proof.
  unfold known_op. simpl. intros Hop.
  repeat (apply orb_false_iff in Hop as [-> Hop]). reflexivity.
Qed.

(** X3. A predicate whose operator is none of the nine that [where] knows
    matches no record and raises nothing: as the first predicate of the
    list it makes the result empty whatever follows, and anywhere in the
    list it leaves no record in a result that is returned. *)
Theorem where_unknown_operator (col op : string) (val : value)
  (before after : list condition) (rows : list row) :
  known_op op = false →
  where_ ((col, op, val) :: after) rows = Ok [] ∧
  (∀ res, where_ (before ++ (col, op, val) :: after) rows = Ok res → res = []).
Proof.
  intros Hop.
  assert (Hnone : ∀ pre, List.filter
            (passes (where_check (pre ++ (col, op, val) :: after))) rows = []).
  { intros pre. induction rows as [|r rows IH]; [reflexivity|].
    simpl. rewrite IH. unfold passes at 1.
    pose proof (where_check_app pre ((col, op, val) :: after) r) as E.
    unfold condition in *. rewrite E. unfold and_then.
    rewrite (where_check_unknown col op val after r Hop).
    now destruct (where_check pre r) as [[|]|]. }
  split.
  - clear Hnone. unfold where_. induction rows as [|r rows IH]; [reflexivity|].
    cbn [filterM]. rewrite (where_check_unknown col op val after r Hop).
    now rewrite IH.
  - intros res Hres. apply filterM_filter in Hres. now rewrite Hres, Hnone.
Qed.

(** X4. On a predicate list that uses none of [contains], [in] and
    [not in], [having] and [where] are the same function: the same
    records, or the same exception. *)
Theorem having_is_where_on_comparisons (conditions : list condition)
  (rows : list row) :
  Forall (fun c => where_only (cond_op c) = false) conditions →
  having conditions rows = where_ conditions rows.
Proof.
  intros Hall. apply having_where. apply forallb_forall.
  intros c Hc. rewrite List.Forall_forall in Hall. now rewrite (Hall c Hc).
Qed.

(** *** [select] *)

Lemma dict_get_set (k k' : string) (v : value) (d : row) :
  dict_get k (dict_set k' v d) = if String.eqb k' k then v else dict_get k d.
Proof.
  induction d as [|[k0 v0] d IH]; simpl.
  - now destruct (String.eqb k' k).
  - destruct (String.eqb k0 k') eqn:E0; simpl.
    + apply String.eqb_eq in E0 as ->. now destruct (String.eqb k' k).
    + rewrite IH. destruct (String.eqb k0 k) eqn:E1; [|reflexivity].
      apply String.eqb_eq in E1 as ->. now rewrite String.eqb_sym, E0.
Qed.





(** *** [limit] *)

(** X6. [limit(n)] returns a prefix of the records, for every integer [n];
    two limits in a row are the limit by the smaller count. *)
Theorem limit_prefix_and_chain (n m : Z) (rows : list row) :
  limit n rows `prefix_of` rows ∧
  (0 <= n → 0 <= m → limit m (limit n rows) = limit (Z.min m n) rows).
Proof.
  split.
  - unfold limit, slice_to. destruct (0 <=? n); apply prefix_take.
  - intros Hn Hm. unfold limit, slice_to.
    destruct (0 <=? n) eqn:En; [|apply Z.leb_gt in En; lia].
    destruct (0 <=? m) eqn:Em; [|apply Z.leb_gt in Em; lia].
    destruct (0 <=? Z.min m n) eqn:Emin; [|apply Z.leb_gt in Emin; lia].
    rewrite take_take. f_equal. lia.
Qed.

End OperatorProperties.

Section OrderByProperties.
Context `{PyFloat}.

Lemma insert_sorted_perm (desc : bool) (x : value * row) :
  ∀ l l', insert_sorted desc x l = Ok l' → l' ≡ₚ x :: l.
Proof.
  induction l as [|e l IH]; intros l'; simpl.
  - now intros [= <-].
  - destruct (goes_before desc x.1 e.1) as [[|]|]; simpl; try discriminate.
    + now intros [= <-].
    + destruct (insert_sorted desc x l) as [l''|]; simpl; [|discriminate].
      intros [= <-]. rewrite (IH l'' eq_refl). apply Permutation_swap.
Qed.

Definition sort_step (desc : bool) (acc : result (list (value * row)))
  (x : value * row) : result (list (value * row)) :=
  let* l := acc in insert_sorted desc x l.

Lemma sort_fold_raise (desc : bool) (keyed : list (value * row)) (e : exn) :
  fold_left (sort_step desc) keyed (Raise e) = Raise e.
Proof. induction keyed; simpl; auto. Qed.

Lemma sort_fold_perm (desc : bool) (keyed : list (value * row)) :
  ∀ acc l, fold_left (sort_step desc) keyed (Ok acc) = Ok l → l ≡ₚ acc ++ keyed.
Proof.
  induction keyed as [|x keyed IH]; intros acc l; simpl.
  - intros [= <-]. now rewrite app_nil_r.
  - destruct (insert_sorted desc x acc) as [acc'|e] eqn:E.
    + intros Hl. rewrite (IH acc' l Hl).
      rewrite (insert_sorted_perm desc x acc acc' E).
      simpl. apply Permutation_middle.
    + now rewrite sort_fold_raise.
Qed.

Lemma sorted_by_perm (col : string) (desc : bool) (rows l : list row) :
  sorted_by col desc rows = Ok l → l ≡ₚ rows.
Proof.
  unfold sorted_by, py_sorted.
  change (fun acc x => let* l := acc in insert_sorted desc x l)
    with (sort_step desc).
  destruct (fold_left _ _ _) as [keyed|] eqn:E; simpl; [|discriminate].
  intros [= <-]. apply sort_fold_perm in E. simpl in E.
  rewrite E, List.map_map. simpl. now rewrite List.map_id.
Qed.

(** X7. [order_by] returns the records it was given, each as often as it
    was there: a permutation when the sort succeeds, the input itself when
    it raises. It loses no record and invents none. *)
Theorem order_by_permutation (col : string) (desc : bool) (rows : list row) :
  order_by col desc rows ≡ₚ rows ∧
  (is_ok (sorted_by col desc rows) = false → order_by col desc rows = rows).
Proof.
  unfold order_by. destruct (sorted_by col desc rows) as [l|e] eqn:E.
  - split; [now apply (sorted_by_perm col desc)|discriminate].
  - split; reflexivity.
Qed.

(** X8. Ordering by a column that no record has, or that is null in every
    record, returns the records in the order they were in: with two
    records or more the first comparison is [None < None], which raises,
    and the input is handed back. *)
Theorem order_by_null_column (col : string) (desc : bool) (rows : list row) :
  Forall (fun r => dict_get col r = VNone) rows →
  order_by col desc rows = rows ∧
  ((2 <= length rows)%nat → sorted_by col desc rows = Raise TypeError).
Proof.
  intros Hnull.
  destruct rows as [|r1 [|r2 rows]].
  - split; [reflexivity|simpl; lia].
  - split; [reflexivity|simpl; lia].
  - assert (E : sorted_by col desc (r1 :: r2 :: rows) = Raise TypeError).
    { apply Forall_cons in Hnull as [H1 Hnull].
      apply Forall_cons in Hnull as [H2 _].
      unfold sorted_by, py_sorted. simpl. rewrite H1, H2.
      change (fun acc x => let* l := acc in insert_sorted desc x l)
        with (sort_step desc).
      replace (goes_before desc VNone VNone) with (@Raise bool TypeError)
        by now destruct desc.
      simpl. now rewrite sort_fold_raise. }
    split; [|now intros _]. unfold order_by. now rewrite E.
Qed.

(** *** Integer keys *)

(** the key of a record that holds an integer in [col] *)
Definition int_key (col : string) (r : row) : Z :=
  match dict_get col r with VInt n => n | _ => 0 end.

(** [a] may stand in front of [b] in the requested order *)
Definition in_order (desc : bool) (a b : Z) : Prop :=
  if desc then b <= a else a <= b.

Definition has_int (col : string) (r : row) : Prop :=
  ∃ n, dict_get col r = VInt n.

Lemma goes_before_int (desc : bool) (x e : Z) :
  goes_before desc (VInt x) (VInt e) = Ok (if desc then e <? x else x <? e).
Proof.
  unfold goes_before, py_lt. destruct desc; simpl; f_equal.
Qed.

Definition keyed_ok (col : string) (kr : value * row) : Prop :=
  ∃ n, kr.1 = VInt n ∧ dict_get col kr.2 = VInt n.

Definition keyed_order (col : string) (desc : bool) (a b : value * row) : Prop :=
  in_order desc (int_key col a.2) (int_key col b.2).

Lemma insert_sorted_int (col : string) (desc : bool) (x : value * row) :
  keyed_ok col x →
  ∀ l, Forall (keyed_ok col) l → StronglySorted (keyed_order col desc) l →
       ∃ l', insert_sorted desc x l = Ok l' ∧
             Forall (keyed_ok col) l' ∧
             StronglySorted (keyed_order col desc) l'.
Proof.
  intros (n & Hxk & Hxr).
  induction l as [|e l IH]; intros Hok Hsorted.
  - exists [x]. split; [reflexivity|]. split.
    + constructor; [now exists n|constructor].
    + repeat constructor.
  - apply Forall_cons in Hok as [(m & Hek & Her) Hok].
    apply StronglySorted_inv in Hsorted as [Hl He].
    simpl. rewrite Hxk, Hek, goes_before_int.
    assert (Hx : keyed_ok col x) by now exists n.
    assert (He' : keyed_ok col e) by now exists m.
    destruct (if desc then m <? n else n <? m) eqn:Hcmp; simpl.
    + exists (x :: e :: l). split; [reflexivity|].
      split; [now repeat constructor|].
      assert (Hxe : keyed_order col desc x e).
      { unfold keyed_order, in_order, int_key. rewrite Hxr, Her.
        destruct desc; [apply Z.ltb_lt in Hcmp|apply Z.ltb_lt in Hcmp]; lia. }
      constructor; [now constructor|].
      constructor; [exact Hxe|].
      eapply Forall_impl; [exact He|].
      intros y Hy. unfold keyed_order, in_order in *.
      destruct desc; lia.
    + destruct (IH Hok Hl) as (l' & E & Hok' & Hsorted'). rewrite E. simpl.
      exists (e :: l'). split; [reflexivity|].
      split; [now constructor|].
      constructor; [exact Hsorted'|].
      rewrite (insert_sorted_perm desc x l l' E).
      constructor; [|exact He].
      unfold keyed_order, in_order, int_key. rewrite Hxr, Her.
      destruct desc; apply Z.ltb_ge in Hcmp; lia.
Qed.

Lemma sort_fold_int (col : string) (desc : bool) (keyed : list (value * row)) :
  Forall (keyed_ok col) keyed →
  ∀ acc, Forall (keyed_ok col) acc →
         StronglySorted (keyed_order col desc) acc →
         ∃ l, fold_left (sort_step desc) keyed (Ok acc) = Ok l ∧
              StronglySorted (keyed_order col desc) l.
Proof.
  induction 1 as [|x keyed Hx _ IH]; intros acc Hacc Hsorted.
  - now exists acc.
  - simpl.
    destruct (insert_sorted_int col desc x Hx acc Hacc Hsorted)
      as (acc' & -> & Hacc' & Hsorted').
    now apply IH.
Qed.

(** X9. When every record holds an integer in the column, [order_by]
    sorts: the sort raises nothing, and the records come back as a
    permutation in ascending order of that integer, in descending order
    for [desc]. *)
Theorem order_by_sorts_integers (col : string) (desc : bool) (rows : list row) :
  Forall (has_int col) rows →
  sorted_by col desc rows = Ok (order_by col desc rows) ∧
  order_by col desc rows ≡ₚ rows ∧
  StronglySorted (fun a b => in_order desc (int_key col a) (int_key col b))
    (order_by col desc rows).
Proof.
  intros Hint.
  assert (Hkeyed : Forall (keyed_ok col)
                     (map (fun r => (dict_get col r, r)) rows)).
  { apply Forall_fmap. eapply Forall_impl; [exact Hint|].
    intros r [n Hn]. now exists n. }
  destruct (sort_fold_int col desc _ Hkeyed [] ltac:(constructor)
              ltac:(constructor)) as (l & Hl & Hsorted).
  assert (E : sorted_by col desc rows = Ok (map snd l)).
  { unfold sorted_by, py_sorted.
    change (fun acc x => let* l := acc in insert_sorted desc x l)
      with (sort_step desc).
    now rewrite Hl. }
  unfold order_by. rewrite E.
  split; [reflexivity|]. split; [now apply (sorted_by_perm col desc)|].
  clear - Hsorted. induction Hsorted as [|a l _ IH Ha]; simpl; constructor.
  - exact IH.
  - apply Forall_fmap. eapply Forall_impl; [exact Ha|]. now intros b Hb.
Qed.

(** where [insert_sorted] puts a record: behind the records that may
    stand in front of it, before records of other keys only *)
Lemma insert_sorted_split (col : string) (desc : bool) (x : value * row) :
  keyed_ok col x →
  ∀ l, Forall (keyed_ok col) l → StronglySorted (keyed_order col desc) l →
       ∃ l1 l2, l = l1 ++ l2 ∧ insert_sorted desc x l = Ok (l1 ++ x :: l2) ∧
                Forall (fun e => int_key col e.2 ≠ int_key col x.2) l2.
Proof.
  intros (n & Hxk & Hxr).
  induction l as [|e l IH]; intros Hok Hsorted.
  - exists [], []. repeat split; constructor.
  - apply Forall_cons in Hok as [(m & Hek & Her) Hok].
    apply StronglySorted_inv in Hsorted as [Hl He].
    simpl. rewrite Hxk, Hek, goes_before_int.
    assert (Kx : int_key col x.2 = n) by (unfold int_key; now rewrite Hxr).
    assert (Ke : int_key col e.2 = m) by (unfold int_key; now rewrite Her).
    destruct (if desc then m <? n else n <? m) eqn:Hcmp; simpl.
    + exists [], (e :: l). split; [reflexivity|]. split; [reflexivity|].
      assert (Hne : ∀ y, keyed_order col desc e y →
                         int_key col y.2 ≠ int_key col x.2).
      { intros y. unfold keyed_order, in_order. rewrite Kx, Ke.
        destruct desc; apply Z.ltb_lt in Hcmp; lia. }
      constructor.
      * rewrite Kx, Ke. destruct desc; apply Z.ltb_lt in Hcmp; lia.
      * eapply Forall_impl; [exact He|]. exact Hne.
    + destruct (IH Hok Hl) as (l1 & l2 & -> & E & Hl2). rewrite E. simpl.
      now exists (e :: l1), l2.
Qed.

Definition has_key (col : string) (n : Z) (r : row) : bool :=
  int_key col r =? n.

Lemma filter_key_insert (col : string) (n : Z) (x : value * row)
  (l1 l2 : list (value * row)) :
  Forall (fun e => int_key col e.2 ≠ int_key col x.2) l2 →
  List.filter (fun e => has_key col n e.2) (l1 ++ x :: l2)
  = List.filter (fun e => has_key col n e.2) (l1 ++ l2)
    ++ List.filter (fun e => has_key col n e.2) [x].
Proof.
  intros Hl2. rewrite !List.filter_app. simpl.
  destruct (has_key col n x.2) eqn:Hx; [|now rewrite app_nil_r].
  assert (Hnone : List.filter (fun e => has_key col n e.2) l2 = []).
  { clear -Hl2 Hx. unfold has_key in *. apply Z.eqb_eq in Hx.
    induction Hl2 as [|e l2 He _ IH]; simpl; [reflexivity|].
    rewrite IH. destruct (int_key col e.2 =? n) eqn:E; [|reflexivity].
    apply Z.eqb_eq in E. congruence. }
  now rewrite Hnone, !app_nil_r.
Qed.

Lemma sort_fold_stable (col : string) (desc : bool) (n : Z)
  (keyed : list (value * row)) :
  Forall (keyed_ok col) keyed →
  ∀ acc l, Forall (keyed_ok col) acc →
           StronglySorted (keyed_order col desc) acc →
           fold_left (sort_step desc) keyed (Ok acc) = Ok l →
           List.filter (fun e => has_key col n e.2) l
           = List.filter (fun e => has_key col n e.2) (acc ++ keyed).
Proof.
  induction 1 as [|x keyed Hx _ IH]; intros acc l Hacc Hsorted; simpl.
  - intros [= <-]. now rewrite app_nil_r.
  - destruct (insert_sorted_int col desc x Hx acc Hacc Hsorted)
      as (acc' & E & Hacc' & Hsorted').
    destruct (insert_sorted_split col desc x Hx acc Hacc Hsorted)
      as (l1 & l2 & Eacc & E' & Hl2).
    rewrite E. intros Hl. rewrite (IH acc' l Hacc' Hsorted' Hl).
    rewrite E in E'. injection E' as ->. subst acc.
    rewrite (List.filter_app _ (l1 ++ x :: l2) keyed).
    rewrite (List.filter_app _ (l1 ++ l2) (x :: keyed)).
    rewrite (filter_key_insert col n x l1 l2 Hl2). simpl.
    destruct (has_key col n x.2); simpl; now rewrite <- ?app_assoc, ?app_nil_r.
Qed.

(** X10. The sort of [order_by] is stable: on integer keys, the records
    that share a key come back in the order they had, for the ascending
    and for the descending sort. *)
Theorem order_by_stable (col : string) (desc : bool) (n : Z) (rows : list row) :
  Forall (has_int col) rows →
  List.filter (has_key col n) (order_by col desc rows)
  = List.filter (has_key col n) rows.
Proof.
  intros Hint.
  assert (Hkeyed : Forall (keyed_ok col)
                     (map (fun r => (dict_get col r, r)) rows)).
  { apply Forall_fmap. eapply Forall_impl; [exact Hint|].
    intros r [m Hm]. now exists m. }
  unfold order_by, sorted_by, py_sorted.
  change (fun acc x => let* l := acc in insert_sorted desc x l)
    with (sort_step desc).
  destruct (sort_fold_int col desc _ Hkeyed [] ltac:(constructor)
              ltac:(constructor)) as (l & Hl & _).
  rewrite Hl. simpl.
  pose proof (sort_fold_stable col desc n _ Hkeyed [] l ltac:(constructor)
                ltac:(constructor) Hl) as Hst.
  simpl in Hst.
  assert (Hmap : ∀ k : list (value * row),
             List.filter (has_key col n) (map snd k)
             = map snd (List.filter (fun e => has_key col n e.2) k)).
  { induction k as [|e k IHk]; simpl; [reflexivity|].
    rewrite IHk. now destruct (has_key col n e.2). }
  rewrite Hmap, Hst, <- Hmap, List.map_map. simpl. now rewrite List.map_id.
Qed.

End OrderByProperties.

Section JoinProperties.
Context `{PyFloat}.

Definition keys (d : row) : list string := map fst d.

Lemma dict_mem_keys (k : string) (d : row) :
  dict_mem k d = true ↔ In k (keys d).
Proof.
  induction d as [|[k0 v0] d IH]; simpl; [easy|].
  rewrite orb_true_iff, IH, String.eqb_eq. tauto.
Qed.

Lemma dict_update_get (k : string) (r : row) :
  NoDup (keys r) →
  ∀ acc, dict_get k (dict_update acc r)
         = if dict_mem k r then dict_get k r else dict_get k acc.
Proof.
  unfold dict_update.
  induction r as [|[k0 v0] r IH]; intros Hnd acc; simpl; [reflexivity|].
  apply NoDup_cons in Hnd as [Hk0 Hnd].
  rewrite (IH Hnd), dict_get_set.
  destruct (String.eqb k0 k) eqn:E; simpl; [|reflexivity].
  apply String.eqb_eq in E as ->.
  destruct (dict_mem k r) eqn:Emem; [|reflexivity].
  exfalso. apply Hk0. apply list_elem_of_In. now apply dict_mem_keys.
Qed.

Lemma keys_dict_set (k : string) (v : value) (d : row) :
  keys (dict_set k v d) = if dict_mem k d then keys d else keys d ++ [k].
Proof.
  induction d as [|[k0 v0] d IH]; simpl; [reflexivity|].
  destruct (String.eqb k0 k) eqn:E; simpl.
  - now apply String.eqb_eq in E as ->.
  - rewrite IH. now destruct (dict_mem k d).
Qed.

Lemma dict_set_nodup (k : string) (v : value) (d : row) :
  NoDup (keys d) → NoDup (keys (dict_set k v d)).
Proof.
  intros Hnd. rewrite keys_dict_set.
  destruct (dict_mem k d) eqn:E; [exact Hnd|].
  apply NoDup_app. split; [exact Hnd|]. split; [|apply NoDup_singleton].
  intros x Hx Hxk. apply list_elem_of_singleton in Hxk as ->.
  apply list_elem_of_In, dict_mem_keys in Hx. congruence.
Qed.

Lemma dict_update_nodup (r : row) :
  ∀ acc, NoDup (keys acc) → NoDup (keys (dict_update acc r)).
Proof.
  unfold dict_update. induction r as [|[k0 v0] r IH]; intros acc Hacc; simpl.
  - exact Hacc.
  - apply IH. now apply dict_set_nodup.
Qed.

(** X11. In a merged record of [join] the value of the right record wins
    on every column the right record has, and the left record supplies the
    other columns; the merged record has each column once. (A record is a
    dict: its keys are pairwise different.) *)
Theorem merged_right_wins (l r : row) (k : string) :
  NoDup (keys l) → NoDup (keys r) →
  dict_get k (merged l r)
  = (if dict_mem k r then dict_get k r else dict_get k l) ∧
  NoDup (keys (merged l r)).
Proof.
  intros Hl Hr. split.
  - now apply dict_update_get.
  - now apply dict_update_nodup.
Qed.

Definition matches (on : string) (l r : row) : bool :=
  py_eq (dict_get on r) (dict_get on l).

(** X12. [join] returns the merged record of every pair of a left and a
    right record whose key values are equal, and nothing else: left
    records in their order, for each the matching right records in theirs.
    So it returns at most as many records as there are pairs, and none
    when either side is empty. *)
Theorem join_is_matching_pairs (rows other : list row) (on : string) :
  join_ rows other on
  = concat (map (fun l => map (merged l) (List.filter (matches on l) other))
              rows) ∧
  (∀ out, In out (join_ rows other on) ↔
          ∃ l r, In l rows ∧ In r other ∧ matches on l r = true ∧
                 out = merged l r) ∧
  (length (join_ rows other on) <= length rows * length other)%nat ∧
  join_ [] other on = [] ∧ join_ rows [] on = [].
Proof.
  split; [reflexivity|]. split; [|split; [|split]].
  - intros out. unfold join_. rewrite in_concat. split.
    + intros (outs & Houts & Hout). apply in_map_iff in Houts as (l & <- & Hl).
      unfold join_row in Hout. apply in_map_iff in Hout as (r & <- & Hr).
      apply filter_In in Hr as [Hr Hm]. now exists l, r.
    + intros (l & r & Hl & Hr & Hm & ->). exists (join_row other on l). split.
      * apply in_map_iff. now exists l.
      * unfold join_row. apply in_map. now apply filter_In.
  - unfold join_. induction rows as [|l rows IH]; simpl; [lia|].
    rewrite length_app. unfold join_row at 1. rewrite length_map.
    pose proof (List.filter_length_le
                  (fun r => py_eq (dict_get on r) (dict_get on l)) other).
    lia.
  - reflexivity.
  - unfold join_. induction rows as [|l rows IH]; simpl; [reflexivity|exact IH].
Qed.

End JoinProperties.

Section GroupByProperties.
Context `{PyFloat}.
#[local] Arguments py_eq : simpl never.





Definition group_step (cols : list string) (acc : result groups_t) (r : row)
  : result groups_t :=
  let* groups := acc in
  let key := map (fun c => dict_get c r) cols in
  if hashable (VTuple key) then Ok (groups_append key r groups)
  else Raise TypeError.

Lemma group_fold_raise (cols : list string) (rows : list row) (e : exn) :
  fold_left (group_step cols) rows (Raise e) = Raise e.
Proof. induction rows; simpl; auto. Qed.











(** X14. Grouping by a column that holds a list in some record raises
    [TypeError]: the key tuple of that record cannot be hashed. This is
    what grouping Group records by their [_rows] field does. *)
Theorem group_by_unhashable_key (cols : list string) (rows : list row)
  (col : string) (r : row) (l : list value) :
  In col cols → In r rows → dict_get col r = VList l →
  group_by cols rows = Raise TypeError.
Proof.
  intros Hcol Hr Hl. unfold group_by, collect_groups.
  change (fun acc r => _) with (group_step cols).
  assert (Hkey : hashable (VTuple (map (fun c => dict_get c r) cols)) = false).
  { simpl. apply not_true_is_false. intros Hall.
    rewrite forallb_forall in Hall.
    specialize (Hall (dict_get col r)). rewrite Hl in Hall.
    discriminate Hall. apply in_map_iff. exists col. now rewrite Hl. }
  assert (Hfold : ∀ acc, fold_left (group_step cols) rows acc = Raise TypeError
                         ∨ ∃ e, acc = Raise e).
  { clear Hl. induction rows as [|r' rows IH]; [destruct Hr|].
    intros [acc|e]; [|right; now exists e]. left. simpl.
    destruct Hr as [-> | Hr].
    - simpl in Hkey. rewrite Hkey. apply group_fold_raise.
    - destruct (forallb hashable _); [|apply group_fold_raise].
      destruct (IH Hr (Ok (groups_append
                             (map (fun c => dict_get c r') cols) r' acc)))
        as [E | [e E]]; [exact E|discriminate]. }
  destruct (Hfold (Ok [])) as [-> | [e E]]; [reflexivity|discriminate].
Qed.

End GroupByProperties.

(** * Further properties of the SQL expression machinery *)

Section MoreTokenizerProperties.
Context `{PyFloat}.

(** the last character of [body], or [d] when [body] is empty *)
Fixpoint last_char (d : ascii) (body : string) : ascii :=
  match body with
  | EmptyString => d
  | String c body' => last_char c body'
  end.

Lemma scan_quoted_closed (q : ascii) (body rest : string) :
  ∀ prev,
    closes q prev body = false →
    Ascii.eqb (last_char prev body) "\" = false →
    scan_quoted q prev (body +:+ String q rest) = (body, String.length body).
Proof.
  induction body as [|c body IH]; intros prev Hopen Hlast; simpl in *.
  - now rewrite Ascii.eqb_refl, Hlast.
  - apply orb_false_iff in Hopen as [Hhere Hopen].
    now rewrite Hhere, (IH c Hopen Hlast).
Qed.

Lemma str_drop_closing (q : ascii) (body rest : string) :
  str_drop (S (String.length body)) (body +:+ String q rest) = rest.
Proof. induction body as [|c body IH]; simpl; [now destruct rest|exact IH]. Qed.

(** X15. A quoted literal is read verbatim. When the scan stands at a
    quote, the text up to the next quote of that kind that no backslash
    precedes becomes one text literal, whatever it holds (spaces,
    keywords, operators, characters that are illegal elsewhere, escaped
    quotes with their backslash), and the scan goes on behind the closing
    quote. *)
Theorem quoted_literal_verbatim
  (s : string) (i : nat) (q : ascii) (body rest : string) (tokens : list token) :
  is_quote q = true →
  closes q q body = false →
  Ascii.eqb (last_char q body) "\" = false →
  scans_to s i (String q (body +:+ String q rest)) tokens →
  scans_to s (i + String.length body + 2) rest
    (tokens ++ [LITERAL (AStr body)]).
Proof.
  intros Hq Hopen Hlast Hscan.
  pose proof (next_token_quote s i q (body +:+ String q rest) Hq) as Hnext.
  rewrite (scan_quoted_closed q body rest q Hopen Hlast) in Hnext.
  simpl in Hnext.
  pose proof (scans_step s i q _ tokens _ _ Hscan Hnext) as Hstep.
  replace (String.length body + 2 - 1)%nat with (S (String.length body))
    in Hstep by lia.
  rewrite str_drop_closing in Hstep.
  replace (i + String.length body + 2)%nat
    with (S i + S (String.length body))%nat by lia.
  exact Hstep.
Qed.

(** a character that starts something the tokenizer reads *)
Definition starts_token (ch : ascii) : bool :=
  is_space ch || is_word ch || is_quote ch ||
  existsb (Ascii.eqb ch)
    ["("; ")"; "="; ">"; "<"; "."; "*"; ","]%char.

(** [ch], in front of [rest], starts nothing: it is an ASCII character, no
    such character, and not the [!] of a [!=] *)
Definition illegal (ch : ascii) (rest : string) : bool :=
  N.ltb (code ch) 128 &&
  negb (starts_token ch) &&
  negb (String.eqb (str_take 2 (String ch rest)) "!=").

Lemma next_token_illegal (s : string) (i : nat) (ch : ascii) (rest : string) :
  illegal ch rest = true →
  next_token s i ch (String ch rest) = Raise (unexpected_char ch i s).
Proof.
  unfold illegal. intros Hill. apply andb_prop in Hill as [Hstart Hbang].
  apply andb_prop in Hstart as [_ Hstart].
  apply negb_true_iff in Hstart, Hbang.
  destruct ch as [b0 b1 b2 b3 b4 b5 b6 b7].
  destruct b0, b1, b2, b3, b4, b5, b6, b7;
    try discriminate Hstart; try reflexivity.
  (* the exclamation mark *)
  unfold next_token.
  change (is_space "!") with false. cbv iota.
  change (Ascii.eqb "!" "(") with false.
  change (Ascii.eqb "!" ")") with false. cbv iota.
  cbn [existsb]. rewrite Hbang.
  destruct rest as [|c rest]; reflexivity.
Qed.

(** X16. A character that starts no token is a fatal lexical error: when
    the scan arrives at one, the tokenizer raises [ValueError] with that
    character, its offset in the stripped text, and the text. *)
Theorem illegal_character_raises
  (text : string) (i : nat) (ch : ascii) (rest : string) (tokens : list token) :
  scans_to (strip text) i (String ch rest) tokens →
  illegal ch rest = true →
  tokenize_expr text = Raise (unexpected_char ch i (strip text)).
Proof.
  intros Hscan Hill. unfold tokenize_expr.
  rewrite (scans_to_loop _ _ _ _ Hscan). cbn [tokenize_loop].
  now rewrite (next_token_illegal _ _ _ _ Hill).
Qed.

End MoreTokenizerProperties.

Section MoreCompilerProperties.
Context `{PyFloat}.

Lemma chunk_alone (p : Z) (ts : list token) (r : scanned) :
  (∀ rest out base, barrier p base →
     rpn_loop (ts ++ rest) 0 out ([] ++ base) = resume r rest out base) →
  rpn_loop ts 0 [] [] = r.
Proof.
  intros Hscan. specialize (Hscan [] [] [] I).
  rewrite app_nil_r in Hscan. simpl in Hscan. rewrite Hscan.
  destruct r as [[em loc]|e]; simpl; [|reflexivity]. now rewrite app_nil_r.
Qed.

(** X17. A binary operator takes as its left operand everything on its
    left whose operators outside parentheses bind at least as tightly:
    [X op ...] compiles like [(X) op ...]. So [A AND B OR C] is
    [(A AND B) OR C], operators of one precedence group to the left, and
    [NOT A = B] is [(NOT A) = B]. The operator is any but [NOT] and [IN]. *)
Theorem left_operand_grouping (X rest : list token) (op : string) :
  Chunk (prec op) X →
  String.eqb op "NOT" = false → String.eqb (upper op) "IN" = false →
  to_rpn (X ++ OP op :: rest) = to_rpn (LPAREN :: X ++ RPAREN :: OP op :: rest).
Proof.
  intros HX Hnot Hin.
  destruct (chunk_scan (prec op) X HX [] ltac:(constructor))
    as (r & Hr & Hscan).
  unfold to_rpn.
  pose proof (Hscan (OP op :: rest) [] [] I) as E1.
  pose proof (Hscan (RPAREN :: OP op :: rest) [] [SLPAREN] I) as E2.
  cbn [app] in E1, E2.
  change (rpn_loop (LPAREN :: ?ts) 0 ?out ?st)
    with (rpn_loop ts 0 out (SLPAREN :: st)).
  rewrite E1, E2. clear E1 E2.
  destruct r as [[em loc]|e]; [|reflexivity].
  specialize (Hr _ _ eq_refl).
  unfold resume, bind. rewrite app_nil_r. cbn [app].
  (* the right parenthesis *)
  cbn [rpn_loop].
  rewrite (pop_while_app _ loc [SLPAREN] (ops_from_sop _ _ Hr) I).
  rewrite (pop_while_all (fun _ => true) loc).
  2:{ eapply Forall_impl; [exact (ops_from_sop _ _ Hr)|]. now intros [v|]. }
  cbn [fst snd app]. rewrite Hnot, Hin.
  (* the operator pops all of [loc] *)
  rewrite (pop_while_all (fun v => prec v >=? prec op) loc).
  2:{ eapply Forall_impl; [exact Hr|]. intros [v|]; [|easy].
      intros Hv. rewrite Z.geb_leb. now apply Z.leb_le. }
  reflexivity.
Qed.

Definition is_operand (tk : token) : bool :=
  match tk with LITERAL _ | IDENT _ => true | _ => false end.

(** an operand in the output *)
Definition operand_rpn (tk : token) : rpn_token :=
  match tk with
  | LITERAL a => RLITERAL (atom_value a)
  | IDENT name => RIDENT name
  | _ => RIDENT ""
  end.

(** what an operand pushes *)
Definition operand_value (r : row) (tk : token) : value :=
  match tk with
  | LITERAL a => atom_value a
  | IDENT name => dict_get name r
  | _ => VNone
  end.

Lemma is_comparison_cases (op : string) :
  is_comparison op = true →
  op = "=" ∨ op = "!=" ∨ op = ">" ∨ op = "<" ∨ op = ">=" ∨ op = "<=".
Proof.
  unfold is_comparison. simpl. intros Hop.
  repeat (apply orb_true_iff in Hop as [Hop|Hop];
          [apply String.eqb_eq in Hop; tauto|]).
  discriminate.
Qed.

(** X18. [NOT] binds tighter than the comparisons: [NOT x op y] compiles
    to [x NOT y op], so it negates the truth value of [x] and compares
    that boolean with [y]; it is not the negation of [x op y], which is
    what [NOT (x op y)] compiles to. *)
Theorem not_negates_the_left_operand (x y : token) (op : string) (r : row) :
  is_operand x = true → is_operand y = true → is_comparison op = true →
  to_rpn [OP "NOT"; x; OP op; y]
  = Ok [operand_rpn x; ROP "NOT"; operand_rpn y; ROP op] ∧
  to_rpn [OP "NOT"; LPAREN; x; OP op; y; RPAREN]
  = Ok [operand_rpn x; operand_rpn y; ROP op; ROP "NOT"] ∧
  eval_row [operand_rpn x; ROP "NOT"; operand_rpn y; ROP op] r
  = Ok (compare_values op (VBool (negb (truthy (operand_value r x))))
          (operand_value r y)) ∧
  eval_row [operand_rpn x; operand_rpn y; ROP op; ROP "NOT"] r
  = Ok (negb (compare_values op (operand_value r x) (operand_value r y))).
Proof.
  intros Hx Hy Hop.
  destruct x; try discriminate Hx; destruct y; try discriminate Hy;
    apply is_comparison_cases in Hop
      as [-> | [-> | [-> | [-> | [-> | ->]]]]];
    repeat split; reflexivity.
Qed.

(** X19. Parentheses that do not match are a compile error where the
    main loop meets them. After a sequence [X] whose own parentheses and
    [IN] lists are closed, a right parenthesis raises; a left parenthesis
    in front of [X] with nothing to close it raises at the end. The error
    is [ValueError("Mismatched parentheses")], unless [X] itself already
    raised. *)
Theorem unmatched_parenthesis_raises (X rest : list token) :
  Chunk 0 X →
  (∃ e, to_rpn (X ++ RPAREN :: rest) = Raise e ∧
        (e = ValueError "Mismatched parentheses" ∨
         rpn_loop X 0 [] [] = Raise e)) ∧
  (∃ e, to_rpn (LPAREN :: X) = Raise e ∧
        (e = ValueError "Mismatched parentheses" ∨
         rpn_loop X 0 [] [] = Raise e)).
Proof.
  intros HX.
  destruct (chunk_scan 0 X HX [] ltac:(constructor)) as (r & Hr & Hscan).
  pose proof (chunk_alone 0 X r Hscan) as Halone.
  unfold to_rpn. split.
  - pose proof (Hscan (RPAREN :: rest) [] [] I) as E.
    cbn [app] in E. rewrite E. clear E.
    destruct r as [[em loc]|e]; [|exists e; split; [reflexivity|now right]].
    specialize (Hr _ _ eq_refl).
    exists (ValueError "Mismatched parentheses"). split; [|now left].
    unfold resume, bind. rewrite app_nil_r. cbn [app rpn_loop].
    rewrite (pop_while_all (fun _ => true) loc); [reflexivity|].
    eapply Forall_impl; [exact Hr|]. now intros [v|].
  - change (rpn_loop (LPAREN :: X) 0 [] []) with (rpn_loop X 0 [] [SLPAREN]).
    pose proof (Hscan [] [] [SLPAREN] I) as E.
    rewrite app_nil_r in E. cbn [app] in E. rewrite E. clear E.
    destruct r as [[em loc]|e]; [|exists e; split; [reflexivity|now right]].
    specialize (Hr _ _ eq_refl).
    exists (ValueError "Mismatched parentheses"). split; [|now left].
    unfold resume, bind. cbn [app rpn_loop].
    rewrite (drain_app loc [SLPAREN] (ops_from_sop _ _ Hr)). reflexivity.
Qed.

(** X20. An [IN] that is not followed by a left parenthesis is a compile
    error: behind a sequence [X] with closed parentheses and lists it
    raises [ValueError("IN must be followed by (list)")], at the end of
    the tokens as in front of any other token. *)
Theorem in_without_list_raises (X rest : list token) (op : string) :
  Chunk 0 X →
  String.eqb (upper op) "IN" = true →
  match rest with LPAREN :: _ => False | _ => True end →
  ∃ e, to_rpn (X ++ OP op :: rest) = Raise e ∧
       (e = ValueError "IN must be followed by (list)" ∨
        rpn_loop X 0 [] [] = Raise e).
Proof.
  intros HX Hin Hrest.
  assert (Hnot : String.eqb op "NOT" = false).
  { destruct (String.eqb op "NOT") eqn:E; [|reflexivity].
    apply String.eqb_eq in E as ->. discriminate Hin. }
  destruct (chunk_scan 0 X HX [] ltac:(constructor)) as (r & Hr & Hscan).
  pose proof (chunk_alone 0 X r Hscan) as Halone.
  unfold to_rpn.
  pose proof (Hscan (OP op :: rest) [] [] I) as E.
  cbn [app] in E. rewrite E. clear E.
  destruct r as [[em loc]|e]; [|exists e; split; [reflexivity|now right]].
  exists (ValueError "IN must be followed by (list)"). split; [|now left].
  unfold resume, bind. cbn [rpn_loop]. rewrite Hnot, Hin.
  destruct rest as [|[] rest]; try reflexivity. destruct Hrest.
Qed.

End MoreCompilerProperties.

Section MembershipProperties.
Context `{PyFloat}.





End MembershipProperties.

Section MoreEvaluatorProperties.
Context `{PyFloat}.

Definition is_ordering (op : string) : bool :=
  existsb (String.eqb op) [">"; "<"; ">="; "<="].

(** X22. A comparison [x op y] of two operands compiles and evaluates on
    every record without raising, whatever the types of the two values.
    An ordering comparison is false when one side is null, a missing
    column included, and when the two values cannot be ordered. *)
Theorem comparison_never_raises (x y : token) (op : string) (r : row) :
  is_operand x = true → is_operand y = true → is_comparison op = true →
  let a := operand_value r x in
  let b := operand_value r y in
  (let* e := to_rpn [x; OP op; y] in eval_row e r)
  = Ok (compare_values op a b) ∧
  (is_ordering op = true →
   (a = VNone ∨ b = VNone ∨ ∀ o, is_ok (py_order o a b) = false) →
   compare_values op a b = false).
Proof.
  intros Hx Hy Hop a b. split.
  - subst a b. destruct x; try discriminate Hx; destruct y; try discriminate Hy;
      apply is_comparison_cases in Hop
        as [-> | [-> | [-> | [-> | [-> | ->]]]]]; reflexivity.
  - intros Hord Hbad.
    assert (Hg : ∀ o, guarded_order o a b = false).
    { intros o. unfold guarded_order.
      destruct Hbad as [-> | [-> | Hraise]].
      - reflexivity.
      - now destruct a.
      - specialize (Hraise o). destruct (py_order o a b); [discriminate|].
        now destruct a, b. }
    apply is_comparison_cases in Hop
      as [-> | [-> | [-> | [-> | [-> | ->]]]]];
      try discriminate Hord; unfold compare_values; simpl; apply Hg.
Qed.

Definition is_binary (op : string) : bool :=
  is_comparison op ||
  existsb (String.eqb op) ["CONTAINS"; "AND"; "OR"].

Lemma is_binary_cases (op : string) :
  is_binary op = true →
  op = "=" ∨ op = "!=" ∨ op = ">" ∨ op = "<" ∨ op = ">=" ∨ op = "<=" ∨
  op = "CONTAINS" ∨ op = "AND" ∨ op = "OR".
Proof.
  unfold is_binary. intros Hop. apply orb_true_iff in Hop as [Hop|Hop].
  - apply is_comparison_cases in Hop. tauto.
  - simpl in Hop.
    repeat (apply orb_true_iff in Hop as [Hop|Hop];
            [apply String.eqb_eq in Hop; tauto|]).
    discriminate.
Qed.

(** X23. An operator that lacks its right operand is not a compile
    error: [x op] compiles, and the evaluation raises [IndexError] on
    every record, when the operator finds one value on the stack. A filter
    with such an expression returns only on a table without records. *)
Theorem missing_operand_raises_at_evaluation (x : token) (op : string) :
  is_operand x = true → is_binary op = true →
  to_rpn [x; OP op] = Ok [operand_rpn x; ROP op] ∧
  (∀ r, eval_row [operand_rpn x; ROP op] r = Raise IndexError) ∧
  (∀ r rows, apply_filter_expr (r :: rows) [operand_rpn x; ROP op]
             = Raise IndexError) ∧
  apply_filter_expr [] [operand_rpn x; ROP op] = Ok [].
Proof.
  intros Hx Hop.
  destruct x; try discriminate Hx;
    apply is_binary_cases in Hop
      as [-> | [-> | [-> | [-> | [-> | [-> | [-> | [-> | ->]]]]]]]];
    repeat split; reflexivity.
Qed.

(** X24. The filter of a WHERE or HAVING expression returns a sublist of
    the records, those on which the expression is true, in their order,
    and filtering its result again by the same expression changes
    nothing. *)
Theorem apply_filter_expr_selects (rows res : list row) (e : list rpn_token) :
  apply_filter_expr rows e = Ok res →
  sublist res rows ∧
  res = List.filter (passes (eval_row e)) rows ∧
  apply_filter_expr res e = Ok res.
Proof.
  intros Hres. split; [now apply (filterM_sublist _ _ _ Hres)|].
  split; [now apply filterM_filter|now apply (filterM_idempotent _ rows)].
Qed.

End MoreEvaluatorProperties.

Section AggregateProperties.
Context `{PyFloat}.

(** the records that hold a value in [col] *)
Definition non_null (col : string) (r : row) : bool :=
  negb (is_none (dict_get col r)).

Lemma upper_count_cases (func col : string) (rows : list row) :
  upper func = "COUNT" →
  compute_aggregate_over_rows func (Some col) rows
  = Ok (VInt (Z.of_nat
                (if String.eqb col "*" then length rows
                 else length (List.filter (non_null col) rows)))).
Proof.
  intros Hf. unfold compute_aggregate_over_rows. rewrite Hf. simpl.
  destruct (String.eqb col "*"); [reflexivity|].
  assert (E : List.filter (fun r => match dict_get col r with
                                    | VNone => false
                                    | _ => true
                                    end) rows
              = List.filter (non_null col) rows).
  { apply filter_ext. intros r. unfold non_null. now destruct (dict_get col r). }
  now rewrite E.
Qed.

(** X25. [COUNT] never raises. [COUNT] of a star or of no column, in any
    letter case, is the number of records; [COUNT(col)] is the number of
    records that hold a value other than null in the column, which is at
    most the number of records. *)
Theorem count_aggregate (func col : string) (rows : list row) :
  upper func = "COUNT" →
  compute_aggregate_over_rows func None rows
  = Ok (VInt (Z.of_nat (length rows))) ∧
  compute_aggregate_over_rows func (Some "*") rows
  = Ok (VInt (Z.of_nat (length rows))) ∧
  (String.eqb col "*" = false →
   compute_aggregate_over_rows func (Some col) rows
   = Ok (VInt (Z.of_nat (length (List.filter (non_null col) rows)))) ∧
   (length (List.filter (non_null col) rows) <= length rows)%nat).
Proof.
  intros Hf. split; [|split].
  - unfold compute_aggregate_over_rows. now rewrite Hf.
  - now rewrite (upper_count_cases func "*" rows Hf).
  - intros Hcol. rewrite (upper_count_cases func col rows Hf), Hcol.
    split; [reflexivity|apply List.filter_length_le].
Qed.

(** X26. An aggregate other than [COUNT] over a column that holds no
    number in any record is null and raises nothing: on an empty table, on
    a missing column, on a column of text. An aggregate with a function
    name other than the five is null on every table. *)
Theorem aggregate_without_numbers (func col : string) (rows : list row) :
  String.eqb (upper func) "COUNT" = false →
  (Forall (fun r => is_num (dict_get col r) = false) rows →
   compute_aggregate_over_rows func (Some col) rows = Ok VNone) ∧
  (existsb (String.eqb (upper func)) ["SUM"; "MIN"; "MAX"; "AVG"] = false →
   compute_aggregate_over_rows func (Some col) rows = Ok VNone).
Proof.
  intros Hf. unfold compute_aggregate_over_rows. rewrite Hf. split.
  - intros Hnone.
    assert (E : List.filter is_num (map (fun r => dict_get col r) rows) = []).
    { induction Hnone as [|r rows Hr _ IH]; simpl; [reflexivity|].
      now rewrite Hr. }
    now rewrite E.
  - simpl. intros Hunknown.
    repeat (apply orb_false_iff in Hunknown as [-> Hunknown]).
    now destruct (List.filter _ _).
Qed.

End AggregateProperties.

Section IntegerAggregates.
Context `{PyFloat}.

(** the integer a value counts as: an [int], or a [bool] as 0 or 1 *)
Definition int_part (v : value) : Z :=
  match as_num v with Some (inl n) => n | _ => 0 end.

Definition is_float (v : value) : bool :=
  match v with VFloat _ => true | _ => false end.

Lemma all_ints_int_part (vals : list value) :
  Forall (fun v => is_num v = true ∧ is_float v = false) vals →
  all_ints (map num_of vals) = Some (map int_part vals).
Proof.
  induction 1 as [|v vals [Hnum Hfl] _ IH]; simpl; [reflexivity|].
  rewrite IH. unfold num_of, int_part.
  destruct v; try discriminate Hnum; try discriminate Hfl; reflexivity.
Qed.

Lemma fold_left_add (l : list Z) (a : Z) :
  fold_left Z.add l a = a + fold_right Z.add 0 l.
Proof.
  revert a. induction l as [|x l IH]; intros a; simpl; [lia|].
  rewrite IH. lia.
Qed.

Lemma sum_ignores_others (col : string) (rows : list row) :
  fold_right Z.add 0 (map int_part (numeric_vals col rows))
  = fold_right Z.add 0 (map (fun r => int_part (dict_get col r)) rows).
Proof.
  unfold numeric_vals. induction rows as [|r rows IH]; simpl; [reflexivity|].
  destruct (is_num (dict_get col r)) eqn:E; simpl; rewrite IH; [reflexivity|].
  unfold int_part. unfold is_num in E. now destruct (as_num (dict_get col r)).
Qed.

Lemma extremum_spec (o : ordering) (vals : list value) :
  holds o (Some Eq) = false →
  vals ≠ [] →
  Forall (fun v => is_num v = true ∧ is_float v = false) vals →
  In (py_extremum o vals) vals ∧
  Forall (fun v =>
            holds o (Some (int_part v ?= int_part (py_extremum o vals))) = false)
    vals.
Proof.
  intros Hstrict. destruct vals as [|v vals]; [easy|]. intros _ Hall.
  apply Forall_cons in Hall as [Hv Hall]. unfold py_extremum.
  assert (Hcmp : ∀ a b, is_num a = true ∧ is_float a = false →
                        is_num b = true ∧ is_float b = false →
                        num_cmp (num_of a) (num_of b)
                        = Some (int_part a ?= int_part b)).
  { intros a b [Ha Ha'] [Hb Hb']. unfold num_of, int_part.
    destruct a; try discriminate; destruct b; try discriminate; reflexivity. }
  assert (Hgen : ∀ seen best,
             is_num best = true ∧ is_float best = false →
             In best (seen ++ [best]) →
             Forall (fun v => holds o (Some (int_part v ?= int_part best)) = false)
               seen →
             holds o (Some (int_part best ?= int_part best)) = false →
             let res := fold_left
                          (fun best item =>
                             if holds o (num_cmp (num_of item) (num_of best))
                             then item else best) vals best in
             (In res (seen ++ best :: vals)) ∧
             Forall (fun v => holds o (Some (int_part v ?= int_part res)) = false)
               (seen ++ best :: vals)).
  { clear Hv. induction Hall as [|x vals Hx _ IH]; intros seen best Hb Hin Hseen Hrefl.
    - simpl. split; [apply in_or_app; right; now left|].
      apply Forall_app. split; [exact Hseen|]. now repeat constructor.
    - cbn [fold_left]. rewrite (Hcmp x best Hx Hb).
      assert (Ho : holds o (Some Eq) = false).
      { rewrite Z.compare_refl in Hrefl. exact Hrefl. }
      assert (Hxx : holds o (Some (int_part x ?= int_part x)) = false).
      { rewrite Z.compare_refl. exact Ho. }
      destruct (holds o (Some (int_part x ?= int_part best))) eqn:E.
      + (* the item replaces the best *)
        destruct (IH (seen ++ [best]) x Hx
                    ltac:(apply in_or_app; right; now left)) as [Hres Hres'].
        * apply Forall_app. split.
          -- eapply Forall_impl; [exact Hseen|]. intros y Hy.
             destruct o; simpl in *;
               destruct (int_part y ?= int_part best) eqn:C1;
               destruct (int_part x ?= int_part best) eqn:C2;
               destruct (int_part y ?= int_part x) eqn:C3;
               try discriminate; try reflexivity;
               rewrite ?Z.compare_eq_iff, ?Z.compare_lt_iff, ?Z.compare_gt_iff
                 in *; lia.
          -- constructor; [|constructor].
             destruct o; simpl in *;
               destruct (int_part x ?= int_part best) eqn:C2;
               destruct (int_part best ?= int_part x) eqn:C3;
               try discriminate; try reflexivity;
               rewrite ?Z.compare_eq_iff, ?Z.compare_lt_iff, ?Z.compare_gt_iff
                 in *; lia.
        * exact Hxx.
        * rewrite <- app_assoc in Hres, Hres'. now split.
      + destruct (IH (seen ++ [x]) best Hb) as [Hres Hres'].
        * apply in_or_app. right. now left.
        * apply Forall_app. split; [exact Hseen|]. now repeat constructor.
        * exact Hrefl.
        * split.
          -- apply in_app_or in Hres as [Hres|Hres].
             ++ apply in_app_or in Hres as [Hres|[<-|[]]].
                ** apply in_or_app. now left.
                ** apply in_or_app. right. right. now left.
             ++ apply in_or_app. right. destruct Hres as [<-|Hres];
                  [now left|right; now right].
          -- apply Forall_app in Hres' as [Hs Hr].
             apply Forall_app in Hs as [Hs Hx'].
             apply Forall_cons in Hr as [Hb' Hr].
             apply Forall_app. split; [exact Hs|].
             constructor; [exact Hb'|].
             apply Forall_cons in Hx' as [Hx' _]. now constructor. }
  destruct (Hgen [] v Hv ltac:(now left) ltac:(constructor)) as [Hres Hres'].
  - rewrite Z.compare_refl. exact Hstrict.
  - now split.
Qed.

(** X27. Over a column whose numbers are integers, [SUM] is their exact
    sum, text and null counting for nothing, and [MIN] and [MAX] return a
    value of the column that no other value is smaller or greater than;
    none of them raises. *)
Theorem integer_aggregates (col : string) (rows : list row) :
  Forall (fun r => is_float (dict_get col r) = false) rows →
  Exists (fun r => is_num (dict_get col r) = true) rows →
  compute_aggregate_over_rows "SUM" (Some col) rows
  = Ok (VInt (fold_right Z.add 0
                (map (fun r => int_part (dict_get col r)) rows))) ∧
  (∃ lo, compute_aggregate_over_rows "MIN" (Some col) rows = Ok lo ∧
         In lo (map (dict_get col) rows) ∧
         Forall (fun r => is_num (dict_get col r) = true →
                          int_part lo <= int_part (dict_get col r)) rows) ∧
  (∃ hi, compute_aggregate_over_rows "MAX" (Some col) rows = Ok hi ∧
         In hi (map (dict_get col) rows) ∧
         Forall (fun r => is_num (dict_get col r) = true →
                          int_part (dict_get col r) <= int_part hi) rows).
Proof.
  intros Hnofloat Hsome.
  set (vals := List.filter is_num (map (fun r => dict_get col r) rows)).
  assert (Hvals : Forall (fun v => is_num v = true ∧ is_float v = false) vals).
  { apply List.Forall_forall. intros v Hv. apply filter_In in Hv as [Hv Hnum].
    split; [exact Hnum|]. apply in_map_iff in Hv as (r & <- & Hr).
    rewrite List.Forall_forall in Hnofloat. now apply Hnofloat. }
  assert (Hne : vals ≠ []).
  { apply List.Exists_exists in Hsome as (r & Hr & Hnum). intros E.
    assert (Hin : In (dict_get col r) vals).
    { apply filter_In. split; [|exact Hnum]. apply in_map_iff. exists r. split; [reflexivity|assumption]. }
    rewrite E in Hin. destruct Hin. }
  assert (Hsub : ∀ v, In v vals → In v (map (dict_get col) rows)).
  { intros v Hv. now apply filter_In in Hv as [Hv _]. }
  assert (Hall : ∀ (P : value → Prop),
             Forall P vals →
             Forall (fun r => is_num (dict_get col r) = true →
                              P (dict_get col r)) rows).
  { intros P HP. apply List.Forall_forall. intros r Hr Hnum.
    rewrite List.Forall_forall in HP. apply HP. apply filter_In.
    split; [|exact Hnum]. apply in_map_iff. exists r. split; [reflexivity|assumption]. }
  unfold compute_aggregate_over_rows. simpl. fold vals.
  destruct vals as [|v0 vals0] eqn:Evals; [easy|]. rewrite <- Evals in *.
  split; [|split].
  - unfold py_sum. rewrite (all_ints_int_part vals Hvals), fold_left_add.
    rewrite <- (sum_ignores_others col rows). reflexivity.
  - exists (py_min vals). split; [reflexivity|].
    destruct (extremum_spec Lt_ vals eq_refl Hne Hvals) as [Hin Hmin].
    split; [now apply Hsub|].
    apply (Hall (fun v => int_part (py_min vals) <= int_part v)).
    eapply Forall_impl; [exact Hmin|]. intros v Hv. unfold py_min.
    simpl in Hv. destruct (int_part v ?= int_part (py_extremum Lt_ vals)) eqn:C;
      try discriminate;
      rewrite ?Z.compare_eq_iff, ?Z.compare_gt_iff in C; lia.
  - exists (py_max vals). split; [reflexivity|].
    destruct (extremum_spec Gt_ vals eq_refl Hne Hvals) as [Hin Hmax].
    split; [now apply Hsub|].
    apply (Hall (fun v => int_part v <= int_part (py_max vals))).
    eapply Forall_impl; [exact Hmax|]. intros v Hv. unfold py_max.
    simpl in Hv. destruct (int_part v ?= int_part (py_extremum Gt_ vals)) eqn:C;
      try discriminate;
      rewrite ?Z.compare_eq_iff, ?Z.compare_lt_iff in C; lia.
Qed.

End IntegerAggregates.

Section SplitCommasProperties.

Lemma str_app_cons (c : ascii) (a b : string) :
  String c a +:+ b = String c (a +:+ b).
Proof. reflexivity. Qed.

Lemma str_app_nil_r (s : string) : s +:+ EmptyString = s.
Proof.
  induction s as [|c s IH]; [reflexivity|]. now rewrite str_app_cons, IH.
Qed.

Lemma str_app_assoc (a b c : string) : (a +:+ b) +:+ c = a +:+ (b +:+ c).
Proof.
  induction a as [|x a IH]; [reflexivity|]. now rewrite !str_app_cons, IH.
Qed.

Lemma str_rev_onto_app (s acc : string) :
  str_rev_onto s acc = str_rev_onto s EmptyString +:+ acc.
Proof.
  revert acc. induction s as [|c s IH]; intros acc; simpl; [reflexivity|].
  rewrite (IH (String c acc)), (IH (String c EmptyString)), str_app_assoc.
  reflexivity.
Qed.

Lemma str_rev_cons (c : ascii) (s : string) :
  str_rev (String c s) = str_rev s +:+ String c EmptyString.
Proof. unfold str_rev. simpl. apply str_rev_onto_app. Qed.

Lemma join_snoc (sep : string) (l : list string) (x : string) :
  l ≠ [] → join sep (l ++ [x]) = join sep l +:+ sep +:+ x.
Proof.
  induction l as [|p l IH]; [easy|]. intros _.
  destruct l as [|p' l]; [reflexivity|].
  change (join sep ((p :: p' :: l) ++ [x]))
    with (p +:+ sep +:+ join sep ((p' :: l) ++ [x])).
  rewrite IH by discriminate.
  change (join sep (p :: p' :: l)) with (p +:+ sep +:+ join sep (p' :: l)).
  now rewrite !str_app_assoc.
Qed.

Lemma join_last_app (sep : string) (l : list string) (x y : string) :
  join sep (l ++ [x +:+ y]) = join sep (l ++ [x]) +:+ y.
Proof.
  destruct l as [|p l]; [reflexivity|].
  rewrite !join_snoc by discriminate. now rewrite !str_app_assoc.
Qed.

(** the text read so far: the finished parts and the one being read *)
Definition text_read (parts : list string) (cur : string) : string :=
  join "," (parts ++ [str_rev cur]).

Lemma split_commas_text (s cur : string) (depth : Z) (parts : list string) :
  let out := split_commas_aux s cur depth parts in
  join "," out = text_read parts cur +:+ s ∨
  join "," out +:+ "," = text_read parts cur +:+ s.
Proof.
  revert cur depth parts. induction s as [|ch s IH]; intros cur depth parts.
  - cbn [split_commas_aux]. unfold text_read. rewrite str_app_nil_r.
    destruct cur as [|c cur]; [|now left].
    destruct parts as [|p parts]; [now left|]. right.
    rewrite join_snoc by discriminate. reflexivity.
  - cbn [split_commas_aux].
    set (depth' := if Ascii.eqb ch "(" then depth + 1
                   else if Ascii.eqb ch ")" then depth - 1 else depth).
    destruct (Ascii.eqb ch "," && (depth' =? 0)) eqn:E.
    + apply andb_true_iff in E as [E _]. apply Ascii.eqb_eq in E as ->.
      assert (Htext : text_read (parts ++ [str_rev cur]) EmptyString +:+ s
                      = text_read parts cur +:+ String "," s).
      { unfold text_read. rewrite join_snoc by (now destruct parts).
        rewrite !str_app_assoc. reflexivity. }
      rewrite <- Htext. apply IH.
    + assert (Htext : text_read parts (String ch cur) +:+ s
                      = text_read parts cur +:+ String ch s).
      { unfold text_read. rewrite str_rev_cons, join_last_app, str_app_assoc.
        reflexivity. }
      rewrite <- Htext. apply IH.
Qed.

Fixpoint has_char (c : ascii) (s : string) : bool :=
  match s with
  | EmptyString => false
  | String x s' => Ascii.eqb x c || has_char c s'
  end.

Lemma split_commas_no_comma (s cur : string) (depth : Z) (parts : list string) :
  has_char "," s = false →
  split_commas_aux s cur depth parts
  = match str_rev cur +:+ s with
    | EmptyString => parts
    | whole => parts ++ [whole]
    end.
Proof.
  revert cur depth. induction s as [|ch s IH]; intros cur depth Hno.
  - cbn [split_commas_aux]. rewrite str_app_nil_r.
    destruct cur as [|c cur]; [reflexivity|].
    rewrite str_rev_cons. destruct (str_rev cur); reflexivity.
  - cbn [split_commas_aux]. simpl in Hno.
    apply orb_false_iff in Hno as [Hch Hno]. rewrite Hch. cbn [andb].
    rewrite IH by exact Hno. rewrite str_rev_cons, str_app_assoc. reflexivity.
Qed.

(** X28. Splitting a select list at its top-level commas loses no text:
    joining the parts with commas gives the list back, except for one comma
    at the very end, which is dropped; and a list without a comma is a
    single part (no part when it is empty). *)
Theorem split_commas_round_trip (s : string) :
  (join "," (split_top_level_commas s) = s ∨
   join "," (split_top_level_commas s) +:+ "," = s) ∧
  (has_char "," s = false →
   split_top_level_commas s = match s with EmptyString => [] | _ => [s] end).
Proof.
  split.
  - apply (split_commas_text s EmptyString 0 []).
  - intros Hno. unfold split_top_level_commas.
    rewrite split_commas_no_comma by exact Hno. now destruct s.
Qed.

End SplitCommasProperties.

Section StoreContents.
Context `{PyFloat}.
Local Abbreviation store := (gmap loc object).

(** every pipeline of [σ] reads the same rows in [τ] *)
Definition keeps (σ τ : store) : Prop :=
  ∀ q rs, read σ q = Ok rs → read τ q = Ok rs.

Lemma read_inv (σ : store) (q : loc) (rs : list row) :
  read σ q = Ok rs → ∃ l, rows_of σ q = Some (l, rs).
Proof.
  unfold read. destruct (rows_of σ q) as [[l rs']|]; [|discriminate].
  intros [= ->]. now exists l.
Qed.

Lemma sub_keeps (σ τ : store) : σ ⊆ τ → keeps σ τ.
Proof.
  intros Hsub q rs Hread. apply read_inv in Hread as [l Hrows].
  apply rows_of_lookup in Hrows as [Hq Hl].
  apply (read_rows_of τ q l). apply rows_of_lookup.
  split; eapply lookup_weaken; eauto.
Qed.

Lemma new_table_read (σ τ : store) (rows : list row) (q : loc) :
  new_table rows σ = (q, τ) → read τ q = Ok rows ∧ σ ⊆ τ.
Proof.
  unfold new_table. destruct (alloc (OList rows) σ) as [l σ1] eqn:E1. intros E2.
  apply alloc_spec in E1 as (Hl & -> & Hsub1).
  apply alloc_spec in E2 as (Hq & -> & Hsub2).
  split; [|etrans; eauto].
  assert (Hne : q ≠ l).
  { intros ->. apply Hq. rewrite dom_insert. set_solver. }
  apply (read_rows_of _ q l). apply rows_of_lookup.
  rewrite lookup_insert_eq. split; [reflexivity|].
  rewrite lookup_insert_ne by exact Hne. now rewrite lookup_insert_eq.
Qed.

(** the pipeline an operator returns when it builds [TableQuery(out)] *)
Lemma returns_new_table (σ : store) (out : list row) :
  ∃ p' σ', Ok (new_table out σ) = Ok (p', σ') ∧ read σ' p' = Ok out ∧ keeps σ σ'.
Proof.
  destruct (new_table out σ) as [p' σ'] eqn:E. exists p', σ'.
  apply new_table_read in E as [Hread Hsub].
  split; [reflexivity|]. split; [exact Hread|]. now apply sub_keeps.
Qed.

(** What an operator of one receiver computes, on rows. *)
Definition on_rows (c : call) (rows : list row) : option (result (list row)) :=
  match c with
  | Where conditions => Some (where_ conditions rows)
  | Select cols => Some (Ok (select cols rows))
  | OrderBy col desc => Some (Ok (order_by col desc rows))
  | Limit n => Some (Ok (limit n rows))
  | GroupBy cols => Some (group_by cols rows)
  | Having conditions => Some (having conditions rows)
  | Join _ _ | MultiJoin _ _ => None
  end.

(** X29. A pipeline object behaves as its rows do: called on an object
    that holds [rows], an operator raises exactly when the operator on
    rows raises, and otherwise returns an object that holds the operator's
    result, while every pipeline that existed, the receiver included,
    still reads the rows it read before. *)
Theorem operators_act_on_rows
  (c : call) (p : loc) (σ : store) (rows : list row) (res : result (list row)) :
  read σ p = Ok rows →
  on_rows c rows = Some res →
  match res with
  | Raise e => exec c p σ = Raise e
  | Ok out =>
      ∃ p' σ', exec c p σ = Ok (p', σ') ∧ read σ' p' = Ok out ∧ keeps σ σ'
  end.
Proof.
  intros Hread Hres.
  destruct c as [conds|cols|col desc|n|other on|tables on|cols|conds];
    simpl in Hres; try discriminate; injection Hres as <-;
    cbn [exec]; rewrite Hread; cbn [bind].
  - destruct (where_ conds rows) as [out|e]; cbn [bind]; [|reflexivity].
    apply returns_new_table.
  - apply returns_new_table.
  - unfold order_by. destruct (sorted_by col desc rows) as [out|e].
    + apply returns_new_table.
    + exists p, σ. split; [reflexivity|]. split; [exact Hread|]. now intros q rs.
  - apply returns_new_table.
  - destruct (group_by cols rows) as [out|e]; cbn [bind]; [|reflexivity].
    apply returns_new_table.
  - destruct (having conds rows) as [out|e]; cbn [bind]; [|reflexivity].
    apply returns_new_table.
Qed.

Lemma join_obj_read (τ : store) (q t : loc) (on : string)
  (rows others : list row) :
  read τ q = Ok rows → read τ t = Ok others →
  ∃ q' τ', join_obj q t on τ = Ok (q', τ') ∧
           read τ' q' = Ok (join_ rows others on) ∧ τ ⊆ τ'.
Proof.
  intros Hq Ht. unfold join_obj. rewrite Hq, Ht. cbn [bind].
  destruct (new_table (join_ rows others on) τ) as [q' τ'] eqn:E.
  exists q', τ'. apply new_table_read in E as [Hread Hsub]. now split.
Qed.

Lemma fold_join_read (on : string) (tables : list loc) (tss : list (list row)) :
  ∀ (τ : store) (q : loc) (rows : list row),
    read τ q = Ok rows →
    Forall2 (fun t rs => read τ t = Ok rs) tables tss →
    ∃ p' σ', fold_left (join_step on) tables (Ok (q, τ)) = Ok (p', σ') ∧
             read σ' p' = Ok (multi_join rows tss on) ∧ τ ⊆ σ'.
Proof.
  intros τ q rows Hq Hall. revert τ q rows Hq Hall.
  induction tables as [|t tables IH] in tss |- *; intros τ q rows Hq Hall.
  - apply Forall2_nil_inv_l in Hall as ->. exists q, τ. now split.
  - apply Forall2_cons_inv_l in Hall as (ts & tss' & Ht & Hall & ->).
    cbn [fold_left]. unfold join_step at 2. cbn [bind].
    destruct (join_obj_read τ q t on rows ts Hq Ht) as (q1 & τ1 & -> & Hq1 & Hsub).
    destruct (IH tss' τ1 q1 (join_ rows ts on) Hq1) as (p' & σ' & E & Hread & Hsub').
    { eapply Forall2_impl; [exact Hall|]. intros t' rs' Hr.
      now apply (sub_keeps τ τ1 Hsub). }
    exists p', σ'. split; [exact E|]. split; [exact Hread|]. etrans; eauto.
Qed.

(** X30. [join] and [multi_join] on pipeline objects: [join] returns an
    object that holds the join of the rows of its two arguments, which may
    be the same object, and [multi_join] returns one that holds the joins
    folded from the left over its tables; with no table it holds the
    receiver's rows. Every pipeline that existed still reads the rows it
    read before. *)
Theorem joins_act_on_rows
  (p : loc) (σ : store) (rows : list row) (on : string) :
  read σ p = Ok rows →
  (∀ other others,
     read σ other = Ok others →
     ∃ p' σ', exec (Join other on) p σ = Ok (p', σ') ∧
              read σ' p' = Ok (join_ rows others on) ∧ keeps σ σ') ∧
  (∀ tables tss,
     Forall2 (fun t rs => read σ t = Ok rs) tables tss →
     ∃ p' σ', exec (MultiJoin tables on) p σ = Ok (p', σ') ∧
              read σ' p' = Ok (multi_join rows tss on) ∧ keeps σ σ') ∧
  ∃ p' σ', exec (MultiJoin [] on) p σ = Ok (p', σ') ∧ read σ' p' = Ok rows.
Proof.
  intros Hread.
  assert (Hmulti : ∀ tables tss,
     Forall2 (fun t rs => read σ t = Ok rs) tables tss →
     ∃ p' σ', exec (MultiJoin tables on) p σ = Ok (p', σ') ∧
              read σ' p' = Ok (multi_join rows tss on) ∧ keeps σ σ').
  { intros tables tss Hall. cbn [exec].
    destruct (read_inv σ p rows Hread) as [l Hrows]. rewrite Hrows.
    destruct (alloc (OTable l) σ) as [q τ] eqn:E.
    apply alloc_spec in E as (Hq & -> & Hsub).
    assert (Hq' : read (<[q:=OTable l]> σ) q = Ok rows).
    { apply rows_of_lookup in Hrows as [Hp Hl].
      apply (read_rows_of _ q l). apply rows_of_lookup.
      rewrite lookup_insert_eq. split; [reflexivity|].
      rewrite lookup_insert_ne; [exact Hl|].
      intros <-. apply Hq. apply elem_of_dom. now rewrite Hl. }
    destruct (fold_join_read on tables tss _ q rows Hq')
      as (p' & σ' & E & Hres & Hsub').
    { eapply Forall2_impl; [exact Hall|]. intros t' rs' Hr.
      now apply (sub_keeps σ _ Hsub). }
    exists p', σ'. split; [exact E|]. split; [exact Hres|].
    apply sub_keeps. etrans; eauto. }
  split; [|split].
  - intros other others Hother. cbn [exec].
    destruct (join_obj_read σ p other on rows others Hread Hother)
      as (p' & σ' & E & Hres & Hsub).
    exists p', σ'. split; [exact E|]. split; [exact Hres|]. now apply sub_keeps.
  - exact Hmulti.
  - destruct (Hmulti [] [] ltac:(constructor)) as (p' & σ' & E & Hres & _).
    now exists p', σ'.
Qed.

End StoreContents.

(** * The further properties on concrete inputs *)

(** the records of [T] whose [amt] is above 8 *)
Definition T_above : list row :=
  [ [("id", VInt 1); ("amt", VInt 10)];
    [("id", VInt 1); ("amt", VInt 20)] ].

Lemma where_selects_in_order_witness :
  sublist T_above T ∧ where_ [("amt", ">", VInt 8)] T_above = Ok T_above.
Proof.
  destruct (where_selects_in_order [("amt", ">", VInt 8)] T T_above eq_refl)
    as (Hsub & _ & Hagain & _).
  split; [exact Hsub|exact Hagain].
Defined.

Lemma where_chain_witness :
  where_ ([("amt", ">", VInt 8)] ++ [("amt", "<", VInt 15)]) T
  = Ok [[("id", VInt 1); ("amt", VInt 10)]].
Proof.
  apply (where_chain [("amt", ">", VInt 8)] [("amt", "<", VInt 15)] T T_above);
    reflexivity.
Defined.

Lemma where_unknown_operator_witness :
  where_ [("id", "like", VInt 1); ("amt", ">", VStr "x")] T = Ok [].
Proof.
  destruct (where_unknown_operator "id" "like" (VInt 1) []
              [("amt", ">", VStr "x")] T eq_refl) as [Hfirst _].
  exact Hfirst.
Defined.

Lemma having_is_where_on_comparisons_witness :
  having [("amt", ">", VInt 8); ("id", "!=", VInt 2)] T
  = where_ [("amt", ">", VInt 8); ("id", "!=", VInt 2)] T.
Proof.
  apply having_is_where_on_comparisons.
  constructor; [reflexivity|]. constructor; [reflexivity|]. constructor.
Defined.

Lemma limit_prefix_and_chain_witness :
  limit 1 (limit 2 T) = limit (Z.min 1 2) T.
Proof.
  destruct (limit_prefix_and_chain 2 1 T) as [_ Hchain].
  apply Hchain; lia.
Defined.

(** records whose [a] values cannot be ordered *)
Definition mixed_rows : list row := [[("a", VInt 1)]; [("a", VStr "x")]].

Lemma order_by_permutation_witness :
  order_by "a" false mixed_rows = mixed_rows.
Proof.
  destruct (order_by_permutation "a" false mixed_rows) as [_ Hself].
  apply Hself. reflexivity.
Defined.

Lemma order_by_null_column_witness :
  order_by "name" true T = T ∧ sorted_by "name" true T = Raise TypeError.
Proof.
  destruct (order_by_null_column "name" true T) as [Hsame Hraise].
  - constructor; [reflexivity|]. constructor; [reflexivity|].
    constructor; [reflexivity|]. constructor.
  - split; [exact Hsame|]. apply Hraise. simpl. lia.
Defined.

Lemma T_has_int : Forall (has_int "amt") T.
Proof.
  constructor; [now exists 10|]. constructor; [now exists 20|].
  constructor; [now exists 5|]. constructor.
Qed.

Lemma order_by_sorts_integers_witness :
  sorted_by "amt" true T = Ok (order_by "amt" true T) ∧
  order_by "amt" true T ≡ₚ T.
Proof.
  destruct (order_by_sorts_integers "amt" true T T_has_int) as (Hok & Hperm & _).
  split; [exact Hok|exact Hperm].
Defined.

Lemma order_by_stable_witness :
  List.filter (has_key "amt" 10) (order_by "amt" false T)
  = List.filter (has_key "amt" 10) T.
Proof. apply (order_by_stable "amt" false 10 T T_has_int). Defined.

Lemma merged_right_wins_witness :
  let l : row := [("id", VInt 1); ("size", VInt 2)] in
  let r : row := [("size", VInt 3)] in
  dict_get "size" (merged l r) = VInt 3 ∧ NoDup (keys (merged l r)).
Proof.
  intros l r. apply (merged_right_wins l r "size").
  - simpl. apply NoDup_cons. split; [|apply NoDup_singleton].
    intros Hin. apply list_elem_of_singleton in Hin. discriminate Hin.
  - apply NoDup_singleton.
Defined.


Lemma group_by_unhashable_key_witness :
  group_by ["tags"] [[("tags", VList [VInt 1])]] = Raise TypeError.
Proof.
  apply (group_by_unhashable_key ["tags"] [[("tags", VList [VInt 1])]]
           "tags" [("tags", VList [VInt 1])] [VInt 1]).
  - now left.
  - now left.
  - reflexivity.
Defined.

Lemma quoted_literal_verbatim_witness :
  scans_to "'a = #' x" 7 " x" [LITERAL (AStr "a = #")].
Proof.
  apply (quoted_literal_verbatim "'a = #' x" 0 "'" "a = #" " x" []).
  - reflexivity.
  - reflexivity.
  - reflexivity.
  - apply scans_start.
Defined.

Lemma illegal_character_raises_witness :
  tokenize_expr "a # b" = Raise (unexpected_char "#" 2 "a # b").
Proof.
  apply (illegal_character_raises "a # b" 2 "#" " b" [IDENT "a"]).
  - pose proof (scans_start "a # b") as S0.
    pose proof (scans_step _ _ _ _ _ (Some (IDENT "a")) 1 S0 eq_refl) as S1.
    exact (scans_step _ _ _ _ _ None 1 S1 eq_refl).
  - reflexivity.
Defined.

Lemma left_operand_grouping_witness :
  to_rpn (cmp_tokens "a" 1 ++ OP "AND" :: cmp_tokens "b" 2)
  = to_rpn (LPAREN :: cmp_tokens "a" 1 ++ RPAREN :: OP "AND" :: cmp_tokens "b" 2).
Proof.
  apply left_operand_grouping.
  - apply cmp_tokens_chunk. now compute.
  - reflexivity.
  - reflexivity.
Defined.

Lemma not_negates_the_left_operand_witness :
  to_rpn [OP "NOT"; IDENT "a"; OP "="; LITERAL (AInt 1)]
  = Ok [RIDENT "a"; ROP "NOT"; RLITERAL (VInt 1); ROP "="] ∧
  eval_row [RIDENT "a"; ROP "NOT"; RLITERAL (VInt 1); ROP "="] [("a", VInt 0)]
  = Ok true.
Proof.
  destruct (not_negates_the_left_operand (IDENT "a") (LITERAL (AInt 1)) "="
              [("a", VInt 0)] eq_refl eq_refl eq_refl)
    as (Hflat & _ & Heval & _).
  split; [exact Hflat|exact Heval].
Defined.

Lemma unmatched_parenthesis_raises_witness :
  ∃ e, to_rpn (cmp_tokens "a" 1 ++ [RPAREN]) = Raise e ∧
       (e = ValueError "Mismatched parentheses" ∨
        rpn_loop (cmp_tokens "a" 1) 0 [] [] = Raise e).
Proof.
  destruct (unmatched_parenthesis_raises (cmp_tokens "a" 1) []) as [Hright _].
  - apply cmp_tokens_chunk. lia.
  - exact Hright.
Defined.

Lemma in_without_list_raises_witness :
  ∃ e, to_rpn ([IDENT "a"] ++ [OP "in"; LITERAL (AInt 1)]) = Raise e ∧
       (e = ValueError "IN must be followed by (list)" ∨
        rpn_loop [IDENT "a"] 0 [] [] = Raise e).
Proof.
  apply (in_without_list_raises [IDENT "a"] [LITERAL (AInt 1)] "in").
  - apply Chunk_ident, Chunk_nil.
  - reflexivity.
  - exact I.
Defined.

Lemma comparison_never_raises_witness :
  (let* e := to_rpn [IDENT "a"; OP "<"; LITERAL (AStr "x")] in
   eval_row e [("a", VInt 1)]) = Ok false.
Proof.
  destruct (comparison_never_raises (IDENT "a") (LITERAL (AStr "x")) "<"
              [("a", VInt 1)] eq_refl eq_refl eq_refl) as [Heval _].
  exact Heval.
Defined.

Lemma missing_operand_raises_at_evaluation_witness :
  to_rpn [IDENT "a"; OP "AND"] = Ok [RIDENT "a"; ROP "AND"] ∧
  eval_row [RIDENT "a"; ROP "AND"] [("a", VInt 1)] = Raise IndexError.
Proof.
  destruct (missing_operand_raises_at_evaluation (IDENT "a") "AND"
              eq_refl eq_refl) as (Hrpn & Heval & _).
  split; [exact Hrpn|apply Heval].
Defined.

Lemma apply_filter_expr_selects_witness :
  sublist T_above T ∧
  apply_filter_expr T_above [RIDENT "amt"; RLITERAL (VInt 8); ROP ">"]
  = Ok T_above.
Proof.
  destruct (apply_filter_expr_selects T T_above
              [RIDENT "amt"; RLITERAL (VInt 8); ROP ">"] eq_refl)
    as (Hsub & _ & Hagain).
  split; [exact Hsub|exact Hagain].
Defined.

Lemma count_aggregate_witness :
  compute_aggregate_over_rows "count" None T = Ok (VInt 3) ∧
  compute_aggregate_over_rows "count" (Some "*") T = Ok (VInt 3).
Proof.
  destruct (count_aggregate "count" "amt" T eq_refl) as (Hnone & Hstar & _).
  split; [exact Hnone|exact Hstar].
Defined.

Lemma aggregate_without_numbers_witness :
  compute_aggregate_over_rows "SUM" (Some "name") [[("name", VStr "a")]]
  = Ok VNone.
Proof.
  destruct (aggregate_without_numbers "SUM" "name" [[("name", VStr "a")]]
              eq_refl) as [Hnone _].
  apply Hnone. constructor; [reflexivity|]. constructor.
Defined.

Lemma integer_aggregates_witness :
  compute_aggregate_over_rows "SUM" (Some "amt") T = Ok (VInt 35).
Proof.
  destruct (integer_aggregates "amt" T) as [Hsum _].
  - constructor; [reflexivity|]. constructor; [reflexivity|].
    constructor; [reflexivity|]. constructor.
  - apply Exists_cons_hd. reflexivity.
  - exact Hsum.
Defined.

Lemma operators_act_on_rows_witness :
  ∃ p' σ', exec (Limit 1) 2%positive mixed_store = Ok (p', σ') ∧
           read σ' p' = Ok [[("a", VInt 1)]] ∧
           keeps mixed_store σ'.
Proof.
  exact (operators_act_on_rows (Limit 1) 2%positive mixed_store mixed_rows
           (Ok [[("a", VInt 1)]]) eq_refl eq_refl).
Defined.

Lemma joins_act_on_rows_witness :
  ∃ p' σ', exec (Join 2%positive "a") 2%positive mixed_store = Ok (p', σ') ∧
           read σ' p' = Ok (join_ mixed_rows mixed_rows "a") ∧
           keeps mixed_store σ'.
Proof.
  destruct (joins_act_on_rows 2%positive mixed_store mixed_rows "a" eq_refl)
    as [Hjoin _].
  apply (Hjoin 2%positive mixed_rows). reflexivity.
Defined.
